(** * go-pgxshard: shard routing and pool lifecycle

    A shallow embedding of [shardmanager.go] (package [pgxshard]) and the
    properties of its routing strategy, its constructor and its aggregate
    operations.

    Conventions of the embedding.
    - The width of Go's [int] depends on the port the program is built
      for: 32 or 64 bits.  The port is a parameter ([GoInt.Port]) of every
      definition that converts to [int]; values are carried in [Z] and
      conversions write their wrap-around out.  Closed examples that name no
      port are evaluated on [GoInt.amd64].
    - A Go call ends in one of three ways: it returns a value with a nil
      error, it returns a non-nil error, or it panics.  [outcome] keeps the
      three apart, so that "fails with an error" and "crashes" are different
      statements.
    - The pooling collaborator ([pgxpool]) is a parameter of the
      development; the calls made to it are recorded in a [World]. *)

From Stdlib Require Import ZArith Lia String Ascii List Bool DecimalString.
From Stdlib Require DecimalZ DecimalPos.
From stdpp Require Import base list strings.

Local Open Scope Z_scope.

(** ** Go integers *)

Module GoInt.

(** The port the program is built for fixes the width of [int] and
    [uint]: 32 or 64 bits.  The source has no build constraint, so the
    package can be built for either. *)
Class Port : Type := mkPort {
  intSize : Z;
  intSize_32_or_64 : intSize = 32 \/ intSize = 64
}.

(** The 64-bit ports (amd64, arm64, ...) and the 32-bit ports (386, arm,
    ...). *)
#[global] Instance amd64 : Port := mkPort 64 (or_intror eq_refl).

Definition i386 : Port := mkPort 32 (or_introl eq_refl).

Definition minInt {port : Port} : Z := - 2 ^ (intSize - 1).
Definition maxInt {port : Port} : Z := 2 ^ (intSize - 1) - 1.

Definition in_int {port : Port} (z : Z) : Prop := minInt <= z <= maxInt.
Definition in_int32 (z : Z) : Prop := - 2 ^ 31 <= z <= 2 ^ 31 - 1.
Definition in_int64 (z : Z) : Prop := - 2 ^ 63 <= z <= 2 ^ 63 - 1.
Definition in_uint32 (z : Z) : Prop := 0 <= z < 2 ^ 32.

(** Two's complement wrap-around of [z] into [bits] signed bits: what a
    Go conversion [intN(z)] keeps of [z]. *)
Definition wrap_signed (bits z : Z) : Z :=
  (z + 2 ^ (bits - 1)) mod 2 ^ bits - 2 ^ (bits - 1).

(** The conversion [int(v)]. *)
Definition to_int {port : Port} (v : Z) : Z := wrap_signed intSize v.

(** [x % y] on [int]: the remainder of the division truncated towards
    zero; the sign follows the dividend.  A zero divisor is a run-time
    panic, reported by the caller. *)
Definition rem (x y : Z) : Z := Z.rem x y.

End GoInt.

(** ** Results of Go calls *)

Inductive panic : Type :=
| DivideByZero                      (* runtime error: integer divide by zero *)
| IndexOutOfRangePanic (i len : Z)  (* runtime error: index out of range *)
| NilDereference.                   (* nil pointer dereference, nil func call *)

(** The error values the package creates, one constructor per creation
    site, and the errors of foreign code, which it passes on untouched. *)
Inductive error : Type :=
| KeyTypeNotSupported                    (* errors.New, shardmanager.go:27 *)
| IndexOutOfRange (index : Z)            (* fmt.Errorf, shardmanager.go:75 *)
| ConnectFailed (i : Z) (cause : string) (* fmt.Errorf, shardmanager.go:46 *)
| Foreign (msg : string).                (* pgxpool's or a custom strategy's *)

Inductive outcome (A : Type) : Type :=
| Ok (a : A)
| Err (e : error)
| Panic (p : panic).
Arguments Ok {A} a.
Arguments Err {A} e.
Arguments Panic {A} p.

(** [%d] of an [int]. *)
Definition fmt_d (z : Z) : string :=
  DecimalString.NilZero.string_of_int (Z.to_int z).

(** [err.Error()]. *)
Definition Error (e : error) : string :=
  match e with
  | KeyTypeNotSupported => "shard key type not supported"
  | IndexOutOfRange index =>
      "shard index " ++ fmt_d index ++ " is out of range"
  | ConnectFailed i cause =>
      "failed to connect to shard " ++ fmt_d i ++ ": " ++ cause
  | Foreign msg => msg
  end%string.

(** ** Shard keys

    The key is a Go [any]; the strategy switches on its dynamic type.  The
    first four constructors are the cases of the type switch, the others
    are dynamic types it has no case for. *)
Inductive ShardKey : Type :=
| KInt (v : Z)
| KInt32 (v : Z)
| KInt64 (v : Z)
| KString (v : string)
| KInt8 (v : Z)
| KInt16 (v : Z)
| KUint (v : Z)
| KUint32 (v : Z)
| KUint64 (v : Z)
| KFloat64 (mantissa exponent : Z)
| KBool (v : bool)
| KBytes (v : list Z)
| KNil.

(** The dynamic types that have a case in the type switch. *)
Definition supported (key : ShardKey) : bool :=
  match key with
  | KInt _ | KInt32 _ | KInt64 _ | KString _ => true
  | _ => false
  end.

(** The key holds a value of its Go type. *)
Definition key_wf {port : GoInt.Port} (key : ShardKey) : Prop :=
  match key with
  | KInt v => GoInt.in_int v
  | KInt32 v => GoInt.in_int32 v
  | KInt64 v => GoInt.in_int64 v
  | _ => True
  end.

(** The value of a key of integer type. *)
Definition int_value (key : ShardKey) : option Z :=
  match key with
  | KInt v | KInt32 v | KInt64 v => Some v
  | _ => None
  end.

(** ** hash/crc32 *)

Module crc32.

(** Modelled from the spec: [hash/crc32] is Go's standard library and is
    not under src/; the spec names the function CRC32-IEEE.  [IEEE] is
    the reversed IEEE polynomial, the table and the update loop are the
    byte-at-a-time form of the checksum. *)
Definition IEEE : Z := 0xedb88320.

(** One bit of the shift register:
    [if crc&1 == 1 { crc = (crc >> 1) ^ poly } else { crc >>= 1 }]. *)
Definition shift1 (poly crc : Z) : Z :=
  if Z.testbit crc 0 then Z.lxor (Z.shiftr crc 1) poly else Z.shiftr crc 1.

Fixpoint shiftn (n : nat) (poly crc : Z) : Z :=
  match n with
  | O => crc
  | S n' => shiftn n' poly (shift1 poly crc)
  end.

(** [simpleMakeTable]: entry [i] is [i] pushed through eight bits. *)
Definition simpleMakeTable (poly : Z) : list Z :=
  List.map (fun i => shiftn 8 poly (Z.of_nat i)) (seq 0 256).

Definition IEEETable : list Z := Eval vm_compute in simpleMakeTable IEEE.

(** [^crc] on [uint32]. *)
Definition not32 (crc : Z) : Z := Z.lxor crc 0xffffffff.

(** The loop of [simpleUpdate]:
    [crc = tab[byte(crc)^v] ^ (crc >> 8)] for each byte [v]. *)
Definition update_byte (tab : list Z) (crc v : Z) : Z :=
  Z.lxor (nth (Z.to_nat (Z.lxor (Z.land crc 0xff) v)) tab 0)
         (Z.shiftr crc 8).

Definition simpleUpdate (crc : Z) (tab : list Z) (p : list Z) : Z :=
  not32 (fold_left (update_byte tab) p (not32 crc)).

Definition ChecksumIEEE (data : list Z) : Z := simpleUpdate 0 IEEETable data.

(** The checksum as the standard defines it, bit by bit: the register
    starts at all ones, every message byte is added into the low byte and
    shifted out through the polynomial, the result is complemented. *)
Definition bitwise_byte (poly crc v : Z) : Z :=
  shiftn 8 poly (Z.lxor crc v).

Definition crc32_ieee_bitwise (data : list Z) : Z :=
  not32 (fold_left (bitwise_byte IEEE) data 0xffffffff).

End crc32.

Definition is_byte (v : Z) : Prop := 0 <= v < 256.

(** [[]byte(v)] for a Go string [v]. *)
Definition bytes_of_string (v : string) : list Z :=
  List.map (fun a => Z.of_N (N_of_ascii a)) (list_ascii_of_string v).

(** ** The default routing strategy *)

(** [x % y] with its run-time check. *)
Definition int_rem (x y : Z) : outcome Z :=
  if y =? 0 then Panic DivideByZero else Ok (GoInt.rem x y).

(** shardmanager.go:15-28. *)
Definition defaultShardIndexFunc {port : GoInt.Port}
           (key : ShardKey) (numShards : Z) : outcome Z :=
  match key with
  | KInt v => int_rem v numShards
  | KInt32 v => int_rem (GoInt.to_int v) numShards
  | KInt64 v => int_rem (GoInt.to_int v) numShards
  | KString v =>
      int_rem (GoInt.to_int (crc32.ChecksumIEEE (bytes_of_string v))) numShards
  | _ => Err KeyTypeNotSupported
  end.

(** ** The pooling collaborator and the world

    [pgxpool] is outside the package.  A pool is known by the order in
    which it was opened and by the connection string it was opened for.
    What the collaborator answers may change from one call to the next, so
    its answers are indexed by the number of calls already made. *)

Record Pool : Type := mkPool { pool_id : nat; pool_target : string }.

#[global] Instance Pool_eq_dec : EqDecision Pool.
Proof. solve_decision. Defined.

Record Pgxpool : Type := mkPgxpool {
  (* pgxpool.New(ctx, connStr): [Some msg] is a non-nil error *)
  dial : nat -> string -> option string;
  (* Pool.Ping(ctx): [Some msg] is a non-nil error *)
  ping : nat -> Pool -> option string
}.

(** The calls made to the collaborator so far, oldest first. *)
Record World : Type := mkWorld {
  dialed : list string;   (* connection strings given to pgxpool.New *)
  opened : list Pool;     (* pools pgxpool.New returned *)
  pinged : list Pool;     (* pools pinged *)
  closed : list Pool      (* pools closed *)
}.

Definition empty_world : World := mkWorld [] [] [] [].

(** The pools that were opened and not closed since. *)
Definition live (w : World) : list Pool :=
  List.filter (fun p => negb (bool_decide (p ∈ closed w))) (opened w).

(** The pools [pgxpool.New] returns for [targets] when [n] pools were
    opened before. *)
Fixpoint pools_from (n : nat) (targets : list string) : list Pool :=
  match targets with
  | [] => []
  | t :: rest => mkPool n t :: pools_from (S n) rest
  end.

(** Calls that change the world and end as Go calls end. *)
Definition M (A : Type) : Type := World -> outcome A * World.

Definition ret {A} (a : A) : M A := fun w => (Ok a, w).
Definition fail {A} (e : error) : M A := fun w => (Err e, w).
Definition bind {A B} (m : M A) (k : A -> M B) : M B :=
  fun w =>
    match m w with
    | (Ok a, w') => k a w'
    | (Err e, w') => (Err e, w')
    | (Panic p, w') => (Panic p, w')
    end.
Definition lift {A} (o : outcome A) : M A := fun w => (o, w).

Notation "x <- m ;; k" := (bind m (fun x => k))
  (at level 100, m at next level, right associativity).

(** [l[i] = x] and [l[i]] on a slice, with their bounds checks. *)
Definition slice_set {A} (l : list A) (i : nat) (x : A) : outcome (list A) :=
  if decide (i < List.length l)%nat then Ok (<[i:=x]> l)
  else Panic (IndexOutOfRangePanic (Z.of_nat i) (Z.of_nat (List.length l))).

Definition slice_get {A} (l : list A) (index : Z) : outcome A :=
  if (index <? 0) || (Z.of_nat (List.length l) <=? index)
  then Panic (IndexOutOfRangePanic index (Z.of_nat (List.length l)))
  else match l !! Z.to_nat index with
       | Some x => Ok x
       | None => Panic (IndexOutOfRangePanic index (Z.of_nat (List.length l)))
       end.

(** ** The shard manager *)

Definition strategy : Type := ShardKey -> Z -> outcome Z.

(** shardmanager.go:31-36.  A [*pgxpool.Pool] may be nil ([None]), and so
    may the function value.  The mutex is the subject of [Module Sync]. *)
Record ShardManager : Type := mkShardManager {
  shards : list (option Pool);
  numShards : Z;
  shardIndexFunc : option strategy
}.

Section Manager.

Context {port : GoInt.Port}.
Variable px : Pgxpool.

Definition pgxpool_New (connStr : string) : M (Pool + string) :=
  fun w =>
    match dial px (List.length (dialed w)) connStr with
    | Some cause =>
        (Ok (inr cause),
         mkWorld (dialed w ++ [connStr]) (opened w) (pinged w) (closed w))
    | None =>
        let db := mkPool (List.length (opened w)) connStr in
        (Ok (inl db),
         mkWorld (dialed w ++ [connStr]) (opened w ++ [db])
                 (pinged w) (closed w))
    end.

Definition pool_Ping (shard : option Pool) : M (option string) :=
  fun w =>
    match shard with
    | None => (Panic NilDereference, w)
    | Some p =>
        (Ok (ping px (List.length (pinged w)) p),
         mkWorld (dialed w) (opened w) (pinged w ++ [p]) (closed w))
    end.

Definition pool_Close (shard : option Pool) : M unit :=
  fun w =>
    match shard with
    | None => (Panic NilDereference, w)
    | Some p =>
        (Ok tt, mkWorld (dialed w) (opened w) (pinged w) (closed w ++ [p]))
    end.

(** The loop of [New], shardmanager.go:43-49, from index [i] on. *)
Fixpoint New_loop (i : nat) (rest : list string)
         (shards : list (option Pool)) : M (list (option Pool)) :=
  match rest with
  | [] => ret shards
  | connStr :: rest' =>
      r <- pgxpool_New connStr ;;
      match r with
      | inr err => fail (ConnectFailed (Z.of_nat i) err)
      | inl db =>
          shards' <- lift (slice_set shards i (Some db)) ;;
          New_loop (S i) rest' shards'
      end
  end.

(** shardmanager.go:40-56. *)
Definition New (connectionStrings : list string) : M ShardManager :=
  shards <- New_loop 0 connectionStrings
              (replicate (List.length connectionStrings) None) ;;
  ret (mkShardManager shards (Z.of_nat (List.length shards))
                      (Some defaultShardIndexFunc)).

(** shardmanager.go:60-64; [f] may be nil. *)
Definition SetShardIndexFunc (s : ShardManager) (f : option strategy)
  : ShardManager :=
  mkShardManager (shards s) (numShards s) f.

(** shardmanager.go:68-79. *)
Definition Shard (s : ShardManager) (key : ShardKey) : outcome (option Pool) :=
  match shardIndexFunc s with
  | None => Panic NilDereference
  | Some f =>
      match f key (numShards s) with
      | Err err => Err err
      | Panic p => Panic p
      | Ok index =>
          if (index <? 0) || (index >? Z.of_nat (List.length (shards s)) - 1)
          then Err (IndexOutOfRange index)
          else slice_get (shards s) index
      end
  end.

(** shardmanager.go:82-87.  The slice returned is the manager's own, not
    a copy; the calls modelled here do not write into it. *)
Definition Shards (s : ShardManager) : outcome (list (option Pool)) :=
  Ok (shards s).

(** The loop of [Ping], shardmanager.go:95-99. *)
Fixpoint Ping_loop (rest : list (option Pool)) : M unit :=
  match rest with
  | [] => ret tt
  | shard :: rest' =>
      r <- pool_Ping shard ;;
      match r with
      | Some err => fail (Foreign err)
      | None => Ping_loop rest'
      end
  end.

(** shardmanager.go:91-102. *)
Definition Ping (s : ShardManager) : M unit := Ping_loop (shards s).

Fixpoint Close_loop (rest : list (option Pool)) : M unit :=
  match rest with
  | [] => ret tt
  | shard :: rest' => _ <- pool_Close shard ;; Close_loop rest'
  end.

(** shardmanager.go:105-114. *)
Definition Close (s : ShardManager) : M unit := Close_loop (shards s).

(** The methods a caller may invoke on a manager, and what a call leaves
    behind: the manager and the world after it.  Results are dropped. *)
Inductive call : Type :=
| CallShard (key : ShardKey)
| CallSetShardIndexFunc (f : option strategy)
| CallShards
| CallPing
| CallClose.

Definition exec (c : call) (sw : ShardManager * World)
  : ShardManager * World :=
  let (s, w) := sw in
  match c with
  | CallShard key => (s, w)
  | CallSetShardIndexFunc f => (SetShardIndexFunc s f, w)
  | CallShards => (s, w)
  | CallPing => (s, snd (Ping s w))
  | CallClose => (s, snd (Close s w))
  end.

Definition exec_all (cs : list call) (sw : ShardManager * World)
  : ShardManager * World :=
  fold_left (fun sw c => exec c sw) cs sw.

(** What [New] establishes and no method breaks. *)
Definition manager_wf (s : ShardManager) : Prop :=
  numShards s = Z.of_nat (List.length (shards s))
  /\ Forall (fun p => p <> None) (shards s).

End Manager.

(** ** The lock discipline

    The manager is shared by goroutines.  Each method is the sequence of
    its accesses to the manager's fields and of its mutex operations, in
    program order, as the source has them; [defer s.mu.Unlock()] runs last.
    Goroutines interleave at the grain of these events. *)

Module Sync.

Inductive field : Type := FShards | FNumShards | FShardIndexFunc.

Inductive event : Type :=
| Lock
| Unlock
| Read (f : field)
| Write (f : field).

#[global] Instance field_eq_dec : EqDecision field.
Proof. solve_decision. Defined.

#[global] Instance event_eq_dec : EqDecision event.
Proof. solve_decision. Defined.

(** shardmanager.go:60-64. *)
Definition SetShardIndexFunc_events : list event :=
  [Lock; Write FShardIndexFunc; Unlock].

(** shardmanager.go:68-79: line 69 reads the function value and
    [numShards], line 74 reads [shards] for its length, line 78 reads it
    for the element.  No mutex operation. *)
Definition Shard_events : list event :=
  [Read FShardIndexFunc; Read FNumShards; Read FShards; Read FShards].

(** shardmanager.go:82-87.  The slice returned is the manager's own, not
    a copy; the calls modelled here do not write into it. *)
Definition Shards_events : list event := [Lock; Read FShards; Unlock].

(** shardmanager.go:91-102. *)
Definition Ping_events : list event := [Lock; Read FShards; Unlock].

(** shardmanager.go:105-114. *)
Definition Close_events : list event := [Lock; Read FShards; Unlock].

(** The mutex and what is left to run of each goroutine. *)
Record state : Type := mkState {
  holder : option nat;
  threads : list (list event)
}.

Definition init (progs : list (list event)) : state := mkState None progs.

(** The event goroutine [t] runs next. *)
Definition next (st : state) (t : nat) : option event :=
  match threads st !! t with
  | Some (e :: _) => Some e
  | _ => None
  end.

(** Goroutine [t] runs one event; [None] when it cannot: it has ended, it
    waits for the mutex, or it unlocks a mutex it does not hold. *)
Definition step (t : nat) (st : state) : option state :=
  match threads st !! t with
  | Some (Lock :: k) =>
      match holder st with
      | None => Some (mkState (Some t) (<[t:=k]> (threads st)))
      | Some _ => None
      end
  | Some (Unlock :: k) =>
      if decide (holder st = Some t)
      then Some (mkState None (<[t:=k]> (threads st)))
      else None
  | Some (_ :: k) => Some (mkState (holder st) (<[t:=k]> (threads st)))
  | _ => None
  end.

Fixpoint run (schedule : list nat) (st : state) : option state :=
  match schedule with
  | [] => Some st
  | t :: schedule' =>
      match step t st with
      | Some st' => run schedule' st'
      | None => None
      end
  end.

(** Two goroutines are about to access field [f], one of them writing:
    the accesses are not ordered by the mutex. *)
Definition race (st : state) (t1 t2 : nat) (f : field) : Prop :=
  t1 <> t2
  /\ next st t1 = Some (Write f)
  /\ (next st t2 = Some (Read f) \/ next st t2 = Some (Write f)).

(** Every field access of a method is made with the mutex held. *)
Fixpoint guarded_from (held : bool) (es : list event) : bool :=
  match es with
  | [] => true
  | Lock :: k => guarded_from true k
  | Unlock :: k => guarded_from false k
  | _ :: k => held && guarded_from held k
  end.

Definition guarded (es : list event) : bool := guarded_from false es.

(** What the mutex guarantees about the goroutines whose methods are
    guarded: the rest of each of them is guarded from the state in which it
    holds, or does not hold, the mutex. *)
Definition guarded_inv (st : state) : Prop :=
  forall t k, threads st !! t = Some k ->
              guarded_from (bool_decide (holder st = Some t)) k = true.

End Sync.

(** ** Statements about the collaborator's answers *)

(** Every target of a construction started in world [w] connects. *)
Definition all_dials_ok (px : Pgxpool) (w : World) (targets : list string)
  : Prop :=
  forall j t, targets !! j = Some t ->
              dial px (List.length (dialed w) + j) t = None.

(** The target at position [p] is the first that does not connect, and
    [cause] is the error of [pgxpool.New]. *)
Definition first_dial_failure (px : Pgxpool) (w : World)
           (targets : list string) (p : nat) (cause : string) : Prop :=
  (exists t, targets !! p = Some t
             /\ dial px (List.length (dialed w) + p) t = Some cause)
  /\ forall j t, (j < p)%nat -> targets !! j = Some t ->
                 dial px (List.length (dialed w) + j) t = None.

(** Every pool of a health check started in world [w] answers. *)
Definition all_pings_ok (px : Pgxpool) (w : World) (pools : list Pool) : Prop :=
  forall j pl, pools !! j = Some pl ->
               ping px (List.length (pinged w) + j) pl = None.

(** The shard at position [p] is the first that does not answer, and [msg]
    is the error of its [Ping]. *)
Definition first_ping_failure (px : Pgxpool) (w : World)
           (pools : list Pool) (p : nat) (msg : string) : Prop :=
  (exists pl, pools !! p = Some pl
              /\ ping px (List.length (pinged w) + p) pl = Some msg)
  /\ forall j pl, (j < p)%nat -> pools !! j = Some pl ->
                  ping px (List.length (pinged w) + j) pl = None.

(** The world after [w] when a health check pinged [pools]. *)
Definition with_pinged (w : World) (pools : list Pool) : World :=
  mkWorld (dialed w) (opened w) (pinged w ++ pools) (closed w).

(** "The error of [Ping] identifies the position of the shard that failed":
    the position can be read off the error, whatever the manager and the
    collaborator. *)
Definition Ping_error_identifies_position : Prop :=
  exists position_of : error -> nat,
    forall (px : Pgxpool) (s : ShardManager) (w : World)
           (pools : list Pool) (p : nat) (msg : string),
      shards s = List.map Some pools ->
      first_ping_failure px w pools p msg ->
      exists e w', Ping px s w = (Err e, w') /\ position_of e = p.

(** ** Collaborators and strategies used as concrete inputs *)

(** Every target connects and every pool answers. *)
Definition px_up : Pgxpool := mkPgxpool (fun _ _ => None) (fun _ _ => None).

(** The target [bad] refuses connections; every pool answers. *)
Definition px_refusing (bad : string) : Pgxpool :=
  mkPgxpool
    (fun _ t => if String.eqb t bad then Some "connection refused"%string
                else None)
    (fun _ _ => None).

(** Every target connects; pings of pools of target [bad] time out. *)
Definition px_timing_out (bad : string) : Pgxpool :=
  mkPgxpool
    (fun _ _ => None)
    (fun _ pl => if String.eqb (pool_target pl) bad
                 then Some "context deadline exceeded"%string
                 else None).

(** A custom strategy that is off by one: it answers the shard count. *)
Definition strategy_count : strategy := fun _ count => Ok count.

(** The manager [New] returns for no target at all. *)
Definition empty_manager {port : GoInt.Port} : ShardManager :=
  mkShardManager [] 0 (Some defaultShardIndexFunc).

(** Three pools, the middle one for the target "down", and a manager
    over them. *)
Definition pools_up_down_up : list Pool :=
  [mkPool 0 "up"; mkPool 1 "down"; mkPool 2 "up"].

Definition manager_up_down_up {port : GoInt.Port} : ShardManager :=
  mkShardManager (List.map Some pools_up_down_up) 3
                 (Some defaultShardIndexFunc).

(** ** Further statements about worlds, calls and messages *)

(** The world after [w] when [pools] were closed. *)
Definition with_closed (w : World) (pools : list Pool) : World :=
  mkWorld (dialed w) (opened w) (pinged w) (closed w ++ pools).

(** The pools a world knows were given out by [pgxpool.New] in that world:
    the identity of a pool is the number of pools opened before it. *)
Definition world_wf (w : World) : Prop :=
  (forall pl, In pl (opened w) -> (pool_id pl < List.length (opened w))%nat)
  /\ (forall pl, In pl (closed w) -> (pool_id pl < List.length (opened w))%nat).

(** The strategy the last [SetShardIndexFunc] of a sequence of calls
    installs, if the sequence has one. *)
Fixpoint last_set (cs : list call) : option (option strategy) :=
  match cs with
  | [] => None
  | c :: cs' =>
      match last_set cs' with
      | Some f => Some f
      | None =>
          match c with
          | CallSetShardIndexFunc f => Some f
          | _ => None
          end
      end
  end.

(** No character of the string is a colon. *)
Fixpoint colon_free (s : string) : bool :=
  match s with
  | EmptyString => true
  | String c s' => negb (Ascii.eqb c ":") && colon_free s'
  end.

(** Reading back what [fmt_d] printed. *)
Definition parse_d (s : string) : option Z :=
  match DecimalString.NilZero.int_of_string s with
  | Some d => Some (Z.of_int d)
  | None => None
  end.

(** ** Further statements about the lock discipline *)

(** A method uses the mutex properly: it locks only when it does not hold
    it, unlocks only when it holds it, and does not end holding it. *)
Fixpoint well_locked_from (held : bool) (es : list Sync.event) : bool :=
  match es with
  | [] => negb held
  | Sync.Lock :: k => negb held && well_locked_from true k
  | Sync.Unlock :: k => held && well_locked_from false k
  | _ :: k => well_locked_from held k
  end.

Definition well_locked (es : list Sync.event) : bool :=
  well_locked_from false es.

(** The methods of the manager. *)
Definition locking_methods : list (list Sync.event) :=
  [Sync.SetShardIndexFunc_events; Sync.Shards_events; Sync.Ping_events;
   Sync.Close_events].

Definition all_methods : list (list Sync.event) :=
  Sync.Shard_events :: locking_methods.

(** What holds of the goroutines and the mutex while well-locked methods
    run: each goroutine is where its own use of the mutex says, and the
    holder of the mutex is one of the goroutines. *)
Definition progress_inv (st : Sync.state) : Prop :=
  (forall t k, Sync.threads st !! t = Some k ->
               well_locked_from (bool_decide (Sync.holder st = Some t)) k = true)
  /\ (forall h, Sync.holder st = Some h -> is_Some (Sync.threads st !! h)).

(** Every goroutine has run to its end. *)
Definition all_done (st : Sync.state) : Prop :=
  forall t, Sync.next st t = None.

(** Reading a connect error back from its message: the text after the
    fixed words, up to the first colon, is the position; what follows the
    colon and the space is the cause. *)
Fixpoint strip_prefix (p s : string) : option string :=
  match p with
  | EmptyString => Some s
  | String a p' =>
      match s with
      | String b s' => if Ascii.eqb a b then strip_prefix p' s' else None
      | EmptyString => None
      end
  end.

Fixpoint split_colon (s : string) : option (string * string) :=
  match s with
  | EmptyString => None
  | String c s' =>
      if Ascii.eqb c ":" then Some (EmptyString, s')
      else match split_colon s' with
           | Some (a, r) => Some (String c a, r)
           | None => None
           end
  end.

Definition parse_connect_error (msg : string) : option (Z * string) :=
  match strip_prefix "failed to connect to shard " msg with
  | Some rest =>
      match split_colon rest with
      | Some (digits, String " " cause) =>
          match parse_d digits with
          | Some i => Some (i, cause)
          | None => None
          end
      | _ => None
      end
  | None => None
  end.


(** * Properties *)

(** ** Integers and the default strategy *)

(** A value in the range of [int] survives the conversion to [int], on
    either port. *)
Lemma to_int_id {port : GoInt.Port} (v : Z) :
  GoInt.in_int v -> GoInt.to_int v = v.
Proof.
  unfold GoInt.in_int, GoInt.minInt, GoInt.maxInt, GoInt.to_int,
    GoInt.wrap_signed.
  destruct GoInt.intSize_32_or_64 as [-> | ->]; intros Hv;
    rewrite Z.mod_small; lia.
Qed.

Lemma in_int32_in_int64 (v : Z) : GoInt.in_int32 v -> GoInt.in_int64 v.
Proof. unfold GoInt.in_int32, GoInt.in_int64. lia. Qed.

Lemma in_int32_in_int {port : GoInt.Port} (v : Z) :
  GoInt.in_int32 v -> GoInt.in_int v.
Proof.
  unfold GoInt.in_int32, GoInt.in_int, GoInt.minInt, GoInt.maxInt.
  destruct GoInt.intSize_32_or_64 as [-> | ->]; lia.
Qed.

Lemma in_int_in_int64 {port : GoInt.Port} (v : Z) :
  GoInt.in_int v -> GoInt.in_int64 v.
Proof.
  unfold GoInt.in_int, GoInt.minInt, GoInt.maxInt, GoInt.in_int64.
  destruct GoInt.intSize_32_or_64 as [-> | ->]; lia.
Qed.

Lemma in_uint32_in_int64 (v : Z) : GoInt.in_uint32 v -> GoInt.in_int64 v.
Proof. unfold GoInt.in_uint32, GoInt.in_int64. lia. Qed.

(** Where [int] has 64 bits every [int64] and every [uint32] is in its
    range. *)
Lemma in_int64_in_int {port : GoInt.Port} (v : Z) :
  GoInt.intSize = 64 -> GoInt.in_int64 v -> GoInt.in_int v.
Proof.
  unfold GoInt.in_int, GoInt.minInt, GoInt.maxInt, GoInt.in_int64.
  intros ->. lia.
Qed.

Lemma key_wf_in_int {port : GoInt.Port} (key : ShardKey) (k : Z) :
  GoInt.intSize = 64 -> int_value key = Some k -> key_wf key -> GoInt.in_int k.
Proof.
  intros H64 Hk Hwf.
  destruct key; simpl in Hk; try discriminate; injection Hk as ->; simpl in Hwf.
  - done.
  - by apply in_int32_in_int.
  - by apply in_int64_in_int.
Qed.

Lemma int_rem_nonzero (x y : Z) : y <> 0 -> int_rem x y = Ok (Z.rem x y).
Proof.
  intros Hy. unfold int_rem, GoInt.rem.
  destruct (Z.eqb_spec y 0); [contradiction | reflexivity].
Qed.

(** On either port a key of a supported type gets the remainder of some
    [int]: its value after the conversion to [int]. *)
Lemma default_supported_key {port : GoInt.Port} (key : ShardKey) (N : Z) :
  supported key = true -> N <> 0 ->
  exists x, defaultShardIndexFunc key N = Ok (Z.rem x N).
Proof.
  intros Hsup HN.
  destruct key; simpl in Hsup; try discriminate; simpl;
    eexists; by apply int_rem_nonzero.
Qed.

(** On an integer key whose value is in the range of [int] the strategy
    returns Go's remainder of that value, whatever the type of the key.
    Every [int] and [int32] is in that range; an [int64] is where [int] has
    64 bits. *)
Lemma default_integer_key {port : GoInt.Port} (key : ShardKey) (k N : Z) :
  int_value key = Some k -> GoInt.in_int k -> N <> 0 ->
  defaultShardIndexFunc key N = Ok (Z.rem k N).
Proof.
  intros Hk Hfit HN.
  destruct key; simpl in Hk; try discriminate; injection Hk as ->; simpl in *.
  - by apply int_rem_nonzero.
  - rewrite to_int_id by done. by apply int_rem_nonzero.
  - rewrite to_int_id by done. by apply int_rem_nonzero.
Qed.

(** Keys that are not negative are routed to [k mod N], a valid index. *)
Lemma default_nonnegative_key {port : GoInt.Port} (key : ShardKey) (k N : Z) :
  int_value key = Some k -> GoInt.in_int k -> 1 <= N -> 0 <= k ->
  defaultShardIndexFunc key N = Ok (k mod N) /\ 0 <= k mod N < N.
Proof.
  intros Hk Hfit HN Hk0.
  rewrite (default_integer_key key k N) by (done || lia).
  rewrite Z.rem_mod_nonneg by lia.
  split; [done | apply Z.mod_pos_bound; lia].
Qed.

(** Negative keys get the remainder with the sign of the key: never a
    positive index, and an index only when [N] divides the key. *)
Lemma default_negative_key {port : GoInt.Port} (key : ShardKey) (k N : Z) :
  int_value key = Some k -> GoInt.in_int k -> 1 <= N -> k < 0 ->
  exists r, defaultShardIndexFunc key N = Ok r
            /\ - N < r <= 0
            /\ (r = 0 <-> k mod N = 0)
            /\ (r <> 0 -> r = k mod N - N).
Proof.
  intros Hk Hfit HN Hk0.
  exists (Z.rem k N).
  rewrite (default_integer_key key k N) by (done || lia).
  split; [done |].
  pose proof (Z.rem_bound_pos_neg k N ltac:(lia) ltac:(lia)) as Hb.
  pose proof (Z.mod_pos_bound k N ltac:(lia)) as Hm.
  pose proof (Z.rem_mod_eq_0 k N ltac:(lia)) as H0.
  pose proof (Z.quot_rem' k N) as Hq.
  pose proof (Z.div_mod k N ltac:(lia)) as Hd.
  split; [lia |]. split; [exact H0 |].
  intros Hr.
  assert (Hdiff : N * (k / N - k ÷ N) = Z.rem k N - k mod N) by lia.
  assert (Hm0 : k mod N <> 0) by (rewrite <- H0; done).
  assert (Hd1 : k / N - k ÷ N = -1) by nia.
  rewrite Hd1 in Hdiff. lia.
Qed.

(** Keys without a case in the type switch. *)
Lemma default_unsupported_key {port : GoInt.Port} (key : ShardKey) (N : Z) :
  supported key = false -> defaultShardIndexFunc key N = Err KeyTypeNotSupported.
Proof. destruct key; simpl; (discriminate || reflexivity). Qed.

(** With no shard to divide by, a key of a supported type panics. *)
Lemma default_zero_shards {port : GoInt.Port} (key : ShardKey) :
  supported key = true -> defaultShardIndexFunc key 0 = Panic DivideByZero.
Proof. destruct key; simpl; (discriminate || reflexivity). Qed.

(** ** The checksum

    The table-driven loop computes the bit-by-bit checksum: the shift
    register is linear over exclusive or, so the eight shifts of a byte
    step split into the table entry of the low byte and a plain shift of
    the rest. *)

Lemma below_pow2_bits (n x : Z) :
  0 <= n -> 0 <= x -> (forall i, n <= i -> Z.testbit x i = false) ->
  x < 2 ^ n.
Proof.
  intros Hn Hx Hhigh.
  assert (Hmod : x mod 2 ^ n = x).
  { apply Z.bits_inj'. intros i Hi.
    destruct (Z.lt_ge_cases i n) as [Hlt | Hge].
    - by apply Z.mod_pow2_bits_low.
    - rewrite Z.mod_pow2_bits_high by lia. symmetry. by apply Hhigh. }
  rewrite <- Hmod. apply Z.mod_pos_bound. by apply Z.pow_pos_nonneg.
Qed.

Lemma bits_above_pow2 (n x i : Z) :
  0 <= x < 2 ^ n -> n <= i -> Z.testbit x i = false.
Proof.
  intros Hx Hi.
  destruct (Z.le_gt_cases 0 n) as [Hn | Hn].
  - rewrite <- (Z.mod_small x (2 ^ n)) by done.
    apply Z.mod_pow2_bits_high. lia.
  - rewrite Z.pow_neg_r in Hx by done. lia.
Qed.

Lemma lxor_below_pow2 (n a b : Z) :
  0 <= n -> 0 <= a < 2 ^ n -> 0 <= b < 2 ^ n -> 0 <= Z.lxor a b < 2 ^ n.
Proof.
  intros Hn Ha Hb.
  assert (H0 : 0 <= Z.lxor a b) by (apply Z.lxor_nonneg; lia).
  split; [done |].
  apply below_pow2_bits; try done.
  intros i Hi. rewrite Z.lxor_spec.
  by rewrite (bits_above_pow2 n a), (bits_above_pow2 n b).
Qed.

Lemma shiftr1_below (x : Z) : 0 <= x < 2 ^ 32 -> 0 <= Z.shiftr x 1 < 2 ^ 32.
Proof.
  intros Hx. rewrite Z.shiftr_div_pow2 by lia.
  change (2 ^ 1) with 2. split.
  - apply Z.div_pos; lia.
  - apply Z.div_lt_upper_bound; lia.
Qed.

Lemma shift1_u32 (poly x : Z) :
  GoInt.in_uint32 poly -> GoInt.in_uint32 x ->
  GoInt.in_uint32 (crc32.shift1 poly x).
Proof.
  unfold GoInt.in_uint32, crc32.shift1. intros Hp Hx.
  pose proof (shiftr1_below x Hx) as Hs.
  destruct (Z.testbit x 0); [| done].
  by apply lxor_below_pow2.
Qed.

Lemma shiftn_u32 (n : nat) (poly x : Z) :
  GoInt.in_uint32 poly -> GoInt.in_uint32 x ->
  GoInt.in_uint32 (crc32.shiftn n poly x).
Proof.
  intros Hp. revert x.
  induction n as [| n IH]; intros x Hx; simpl; [done |].
  apply IH. by apply shift1_u32.
Qed.

(** The shift register is linear. *)
Lemma shift1_lxor (poly a b : Z) :
  crc32.shift1 poly (Z.lxor a b)
  = Z.lxor (crc32.shift1 poly a) (crc32.shift1 poly b).
Proof.
  unfold crc32.shift1. rewrite Z.lxor_spec, Z.shiftr_lxor.
  destruct (Z.testbit a 0), (Z.testbit b 0); simpl;
    apply Z.bits_inj'; intros i Hi; rewrite !Z.lxor_spec;
    destruct (Z.testbit (Z.shiftr a 1) i), (Z.testbit (Z.shiftr b 1) i),
      (Z.testbit poly i); reflexivity.
Qed.

Lemma shiftn_lxor (n : nat) (poly a b : Z) :
  crc32.shiftn n poly (Z.lxor a b)
  = Z.lxor (crc32.shiftn n poly a) (crc32.shiftn n poly b).
Proof.
  revert a b. induction n as [| n IH]; intros a b; simpl; [done |].
  by rewrite shift1_lxor, IH.
Qed.

(** Zero bits shift out without touching the polynomial. *)
Lemma shiftn_low_zero (n : nat) (poly x : Z) :
  (forall i, 0 <= i < Z.of_nat n -> Z.testbit x i = false) ->
  crc32.shiftn n poly x = Z.shiftr x (Z.of_nat n).
Proof.
  revert x. induction n as [| n IH]; intros x Hlow.
  - simpl. by rewrite Z.shiftr_0_r.
  - simpl crc32.shiftn. unfold crc32.shift1.
    rewrite (Hlow 0) by lia.
    rewrite IH.
    + rewrite Z.shiftr_shiftr by lia. f_equal. lia.
    + intros i Hi. rewrite Z.shiftr_spec by lia. apply Hlow. lia.
Qed.

(** A register splits into its low byte mixed with the message byte and
    the three bytes above. *)
Lemma register_split (crc v : Z) :
  0 <= v < 256 ->
  Z.lxor crc v
  = Z.lxor (Z.lxor (Z.land crc 0xff) v) (Z.shiftl (Z.shiftr crc 8) 8).
Proof.
  intros Hv. apply Z.bits_inj'. intros i Hi.
  rewrite !Z.lxor_spec, Z.land_spec, Z.shiftl_spec by done.
  change 0xff with (Z.ones 8).
  destruct (Z.lt_ge_cases i 8) as [Hlt | Hge].
  - rewrite Z.ones_spec_low by lia.
    rewrite (Z.testbit_neg_r _ (i - 8)) by lia.
    by rewrite andb_true_r, xorb_false_r.
  - rewrite Z.ones_spec_high by lia.
    rewrite Z.shiftr_spec by lia.
    replace (i - 8 + 8) with i by lia.
    rewrite (bits_above_pow2 8 v i) by (done || lia).
    by rewrite andb_false_r, xorb_false_r, xorb_false_l.
Qed.

Lemma table_index_range (crc v : Z) :
  0 <= v < 256 -> 0 <= Z.lxor (Z.land crc 0xff) v < 256.
Proof.
  intros Hv. change 256 with (2 ^ 8).
  apply lxor_below_pow2; [lia | | done].
  change 0xff with (Z.ones 8). rewrite Z.land_ones by lia.
  apply Z.mod_pos_bound. lia.
Qed.

Lemma simpleMakeTable_nth (poly i : Z) :
  0 <= i < 256 ->
  nth (Z.to_nat i) (crc32.simpleMakeTable poly) 0 = crc32.shiftn 8 poly i.
Proof.
  intros Hi. unfold crc32.simpleMakeTable.
  set (entry := fun j : nat => crc32.shiftn 8 poly (Z.of_nat j)).
  rewrite (nth_indep _ 0 (entry O))
    by (rewrite length_map, length_seq; lia).
  rewrite map_nth, seq_nth by lia.
  unfold entry. simpl Nat.add. by rewrite Z2Nat.id by lia.
Qed.

(** One step of the table-driven loop is eight steps of the register. *)
Lemma update_byte_bitwise (poly crc v : Z) :
  0 <= v < 256 ->
  crc32.update_byte (crc32.simpleMakeTable poly) crc v
  = crc32.bitwise_byte poly crc v.
Proof.
  intros Hv. unfold crc32.update_byte, crc32.bitwise_byte.
  rewrite simpleMakeTable_nth by by apply table_index_range.
  rewrite (register_split crc v Hv).
  rewrite (shiftn_lxor 8 poly _ (Z.shiftl (Z.shiftr crc 8) 8)). f_equal.
  rewrite shiftn_low_zero.
  - change (Z.of_nat 8) with 8.
    rewrite Z.shiftr_shiftl_l by lia. by rewrite Z.sub_diag, Z.shiftl_0_r.
  - intros i Hi. rewrite Z.shiftl_spec by lia.
    apply Z.testbit_neg_r. lia.
Qed.

Lemma IEEETable_eq : crc32.IEEETable = crc32.simpleMakeTable crc32.IEEE.
Proof. vm_compute. reflexivity. Qed.

(** Go's table-driven checksum is the bit-by-bit checksum. *)
Lemma ChecksumIEEE_bitwise (data : list Z) :
  Forall is_byte data ->
  crc32.ChecksumIEEE data = crc32.crc32_ieee_bitwise data.
Proof.
  unfold crc32.ChecksumIEEE, crc32.simpleUpdate, crc32.crc32_ieee_bitwise.
  rewrite IEEETable_eq.
  change (crc32.not32 0) with 0xffffffff.
  generalize 0xffffffff as crc.
  induction data as [| v data IH]; intros crc Hb; simpl; [done |].
  inversion Hb as [| ? ? Hv Hrest]; subst.
  rewrite update_byte_bitwise by done. by apply IH.
Qed.

Lemma not32_u32 (x : Z) : GoInt.in_uint32 x -> GoInt.in_uint32 (crc32.not32 x).
Proof.
  unfold GoInt.in_uint32, crc32.not32. intros Hx.
  apply lxor_below_pow2; lia.
Qed.

Lemma crc32_ieee_bitwise_u32 (data : list Z) :
  Forall is_byte data -> GoInt.in_uint32 (crc32.crc32_ieee_bitwise data).
Proof.
  intros Hb. unfold crc32.crc32_ieee_bitwise. apply not32_u32.
  assert (H0 : GoInt.in_uint32 0xffffffff) by (unfold GoInt.in_uint32; lia).
  revert H0. generalize 0xffffffff as crc.
  induction Hb as [| v data Hv Hrest IH]; intros crc Hcrc; simpl; [done |].
  apply IH. unfold crc32.bitwise_byte.
  apply shiftn_u32; [unfold GoInt.in_uint32, crc32.IEEE; lia |].
  unfold GoInt.in_uint32 in *. unfold is_byte in Hv.
  apply lxor_below_pow2; lia.
Qed.

Lemma bytes_of_string_bytes (v : string) : Forall is_byte (bytes_of_string v).
Proof.
  unfold bytes_of_string. apply Forall_map, Forall_forall.
  intros a _. unfold is_byte.
  pose proof (N_ascii_bounded a). lia.
Qed.

(** ** Construction *)

Lemma pools_from_length (n : nat) (targets : list string) :
  List.length (pools_from n targets) = List.length targets.
Proof.
  revert n. induction targets as [| t rest IH]; intros n; simpl; [done |].
  by rewrite IH.
Qed.

Lemma pools_from_lookup (n i : nat) (targets : list string) (t : string) :
  targets !! i = Some t -> pools_from n targets !! i = Some (mkPool (n + i) t).
Proof.
  revert n i. induction targets as [| t' rest IH]; intros n i Hi; [done |].
  destruct i as [| i]; simpl in *.
  - injection Hi as ->. by rewrite Nat.add_0_r.
  - rewrite (IH (S n) i Hi). do 2 f_equal. lia.
Qed.

Lemma pools_from_targets (n : nat) (targets : list string) :
  List.map pool_target (pools_from n targets) = targets.
Proof.
  revert n. induction targets as [| t rest IH]; intros n; simpl; [done |].
  by rewrite IH.
Qed.

Lemma pools_from_app (n : nat) (l1 l2 : list string) :
  pools_from n (l1 ++ l2)
  = pools_from n l1 ++ pools_from (n + List.length l1) l2.
Proof.
  revert n. induction l1 as [| t rest IH]; intros n; simpl.
  - by rewrite Nat.add_0_r.
  - rewrite IH. do 3 f_equal. lia.
Qed.

Section Construction.

Context {port : GoInt.Port}.
Variable px : Pgxpool.

(** The loop when every remaining target connects: the slice is filled
    from [i] on with the new pools, in the order of the targets. *)
Lemma New_loop_ok (rest : list string) :
  forall (i : nat) (sh : list (option Pool)) (w : World),
    List.length sh = (i + List.length rest)%nat ->
    (forall j t, rest !! j = Some t ->
                 dial px (List.length (dialed w) + j) t = None) ->
    New_loop px i rest sh w
    = (Ok (take i sh ++ List.map Some (pools_from (List.length (opened w)) rest)),
       mkWorld (dialed w ++ rest)
               (opened w ++ pools_from (List.length (opened w)) rest)
               (pinged w) (closed w)).
Proof.
  induction rest as [| t rest IH]; intros i sh w Hlen Hdial.
  - destruct w. simpl in *.
    rewrite !app_nil_r, take_ge by lia. reflexivity.
  - simpl New_loop. unfold bind at 1, pgxpool_New.
    pose proof (Hdial O t eq_refl) as Hfirst.
    rewrite Nat.add_0_r in Hfirst. rewrite Hfirst.
    unfold bind at 1, lift, slice_set.
    simpl in Hlen. destruct (decide (i < List.length sh)%nat) as [Hi | Hi]; [| lia].
    rewrite IH; simpl.
    + rewrite length_app. simpl.
      rewrite (take_S_r _ _ (Some (mkPool (List.length (opened w)) t)))
        by by apply list_lookup_insert_eq.
      rewrite take_insert_ge by done.
      rewrite <- !app_assoc. simpl.
      by rewrite Nat.add_1_r.
    + rewrite length_insert. lia.
    + intros j t' Hj. rewrite length_app. simpl.
      replace (List.length (dialed w) + 1 + j)%nat
        with (List.length (dialed w) + S j)%nat by lia.
      by apply Hdial.
Qed.

(** The loop when the target [p] places ahead is the first that does not
    connect: the error names its index and carries the cause; the targets
    before it were dialled and their pools stay open, the targets after it
    were not dialled. *)
Lemma New_loop_fail (rest : list string) :
  forall (i : nat) (sh : list (option Pool)) (w : World)
         (p : nat) (t cause : string),
    List.length sh = (i + List.length rest)%nat ->
    rest !! p = Some t ->
    dial px (List.length (dialed w) + p) t = Some cause ->
    (forall j t', (j < p)%nat -> rest !! j = Some t' ->
                  dial px (List.length (dialed w) + j) t' = None) ->
    New_loop px i rest sh w
    = (Err (ConnectFailed (Z.of_nat (i + p)) cause),
       mkWorld (dialed w ++ take (S p) rest)
               (opened w ++ pools_from (List.length (opened w)) (take p rest))
               (pinged w) (closed w)).
Proof.
  induction rest as [| t0 rest IH]; intros i sh w p t cause Hlen Hp Hbad Hok;
    [done |].
  simpl New_loop. unfold bind at 1, pgxpool_New.
  destruct p as [| p].
  - simpl in Hp. injection Hp as ->.
    rewrite Nat.add_0_r in Hbad. rewrite Hbad.
    unfold fail. simpl. by rewrite !Nat.add_0_r, app_nil_r.
  - pose proof (Hok O t0 ltac:(lia) eq_refl) as Hfirst.
    rewrite Nat.add_0_r in Hfirst. rewrite Hfirst.
    unfold bind at 1, lift, slice_set.
    simpl in Hlen. destruct (decide (i < List.length sh)%nat) as [Hi | Hi]; [| lia].
    rewrite (IH (S i) _ _ p t cause); simpl.
    + rewrite length_app. simpl.
      rewrite <- !app_assoc. simpl.
      rewrite Nat.add_1_r. do 4 f_equal. lia.
    + rewrite length_insert. lia.
    + done.
    + rewrite length_app. simpl.
      by replace (List.length (dialed w) + 1 + p)%nat
        with (List.length (dialed w) + S p)%nat by lia.
    + intros j t' Hj Hlook. rewrite length_app. simpl.
      replace (List.length (dialed w) + 1 + j)%nat
        with (List.length (dialed w) + S j)%nat by lia.
      apply Hok; [lia | done].
Qed.

Lemma New_ok (targets : list string) (w : World) :
  (forall j t, targets !! j = Some t ->
               dial px (List.length (dialed w) + j) t = None) ->
  New px targets w
  = (Ok (mkShardManager
           (List.map Some (pools_from (List.length (opened w)) targets))
           (Z.of_nat (List.length targets))
           (Some defaultShardIndexFunc)),
     mkWorld (dialed w ++ targets)
             (opened w ++ pools_from (List.length (opened w)) targets)
             (pinged w) (closed w)).
Proof.
  intros Hdial. unfold New, bind.
  rewrite New_loop_ok; [| by rewrite length_replicate | done].
  unfold ret. simpl.
  by rewrite length_map, pools_from_length.
Qed.

Lemma New_fail (targets : list string) (w : World) (p : nat) (t cause : string) :
  targets !! p = Some t ->
  dial px (List.length (dialed w) + p) t = Some cause ->
  (forall j t', (j < p)%nat -> targets !! j = Some t' ->
                dial px (List.length (dialed w) + j) t' = None) ->
  New px targets w
  = (Err (ConnectFailed (Z.of_nat p) cause),
     mkWorld (dialed w ++ take (S p) targets)
             (opened w ++ pools_from (List.length (opened w)) (take p targets))
             (pinged w) (closed w)).
Proof.
  intros Hp Hbad Hok. unfold New, bind.
  by rewrite (New_loop_fail targets 0 _ w p t cause)
    by (done || by rewrite length_replicate).
Qed.

(** [New] never panics: the slice it fills is as long as the targets. *)
Lemma New_no_panic (targets : list string) (w : World) (q : panic) (w' : World) :
  New px targets w <> (Panic q, w').
Proof.
  unfold New, bind.
  assert (Hloop : forall rest i sh w0,
             List.length sh = (i + List.length rest)%nat ->
             forall q0 w1, New_loop px i rest sh w0 <> (Panic q0, w1)).
  { induction rest as [| t rest IH]; intros i sh w0 Hlen q0 w1; [done |].
    simpl New_loop. unfold bind at 1, pgxpool_New.
    destruct (dial px _ t); [done |].
    unfold bind at 1, lift, slice_set. simpl in Hlen.
    destruct (decide (i < List.length sh)%nat); [| lia].
    apply IH. rewrite length_insert. lia. }
  destruct (New_loop px 0 targets _ w) as [[sh | e | q0] w1] eqn:Heq; try done.
  by apply Hloop in Heq; [| rewrite length_replicate].
Qed.

(** Whatever [New] returns satisfies the manager's invariant. *)
Lemma New_wf (targets : list string) (w w' : World) (m : ShardManager) :
  New px targets w = (Ok m, w') -> manager_wf m.
Proof.
  unfold New, bind.
  assert (Hloop : forall rest i sh w0 sh' w1,
             List.length sh = (i + List.length rest)%nat ->
             Forall (fun o => o <> None) (take i sh) ->
             New_loop px i rest sh w0 = (Ok sh', w1) ->
             Forall (fun o => o <> None) sh').
  { induction rest as [| t rest IH]; intros i sh w0 sh' w1 Hlen Hfull.
    - simpl. unfold ret. intros [= <- <-].
      by rewrite take_ge in Hfull by (simpl in Hlen; lia).
    - simpl New_loop. unfold bind at 1, pgxpool_New.
      destruct (dial px _ t); [done |].
      unfold bind at 1, lift, slice_set. simpl in Hlen.
      destruct (decide (i < List.length sh)%nat) as [Hi | Hi]; [| lia].
      apply IH; [rewrite length_insert; lia |].
      rewrite (take_S_r _ _ (Some (mkPool (List.length (opened w0)) t)))
        by by apply list_lookup_insert_eq.
      rewrite take_insert_ge by done.
      apply Forall_app. split; [done |]. by constructor. }
  destruct (New_loop px 0 targets _ w) as [[sh | e | q0] w1] eqn:Heq; try done.
  unfold ret. intros [= <- <-]. split; [done |]. simpl.
  eapply Hloop; [| | exact Heq]; [by rewrite length_replicate | by constructor].
Qed.

(** ** Calls on a manager *)

Lemma exec_shards (c : call) (s s' : ShardManager) (w w' : World) :
  exec px c (s, w) = (s', w') ->
  shards s' = shards s /\ numShards s' = numShards s.
Proof. destruct c; simpl; intros [= <- <-]; done. Qed.

Lemma exec_all_shards (cs : list call) :
  forall (s s' : ShardManager) (w w' : World),
    exec_all px cs (s, w) = (s', w') ->
    shards s' = shards s /\ numShards s' = numShards s.
Proof.
  unfold exec_all.
  induction cs as [| c cs IH]; intros s s' w w'; cbn [fold_left].
  - by intros [= <- <-].
  - destruct (exec px c (s, w)) as [s1 w1] eqn:Hc.
    intros Hrest. apply IH in Hrest as [-> ->].
    by apply exec_shards in Hc.
Qed.

Lemma exec_all_wf (cs : list call) (s s' : ShardManager) (w w' : World) :
  exec_all px cs (s, w) = (s', w') -> manager_wf s -> manager_wf s'.
Proof.
  intros Hexec [Hn Hfull]. apply exec_all_shards in Hexec as [Hs Hnum].
  unfold manager_wf. by rewrite Hs, Hnum.
Qed.

End Construction.

(** ** Lookup *)

Lemma Shard_error (s : ShardManager) (key : ShardKey) (f : strategy) (e : error) :
  shardIndexFunc s = Some f -> f key (numShards s) = Err e ->
  Shard s key = Err e.
Proof. intros Hf He. unfold Shard. by rewrite Hf, He. Qed.

Lemma Shard_panic (s : ShardManager) (key : ShardKey) (f : strategy) (q : panic) :
  shardIndexFunc s = Some f -> f key (numShards s) = Panic q ->
  Shard s key = Panic q.
Proof. intros Hf Hq. unfold Shard. by rewrite Hf, Hq. Qed.

(** The range check stands before the slice access. *)
Lemma Shard_out_of_range (s : ShardManager) (key : ShardKey) (f : strategy)
      (index : Z) :
  shardIndexFunc s = Some f -> f key (numShards s) = Ok index ->
  index < 0 \/ Z.of_nat (List.length (shards s)) <= index ->
  Shard s key = Err (IndexOutOfRange index).
Proof.
  intros Hf Hi Hout. unfold Shard. rewrite Hf, Hi.
  destruct (Z.ltb_spec index 0); [done |].
  destruct (Z.gtb_spec index (Z.of_nat (List.length (shards s)) - 1)); [done | lia].
Qed.

(** An index in range selects the shard at that index, unchanged. *)
Lemma Shard_in_range (s : ShardManager) (key : ShardKey) (f : strategy)
      (index : Z) :
  shardIndexFunc s = Some f -> f key (numShards s) = Ok index ->
  0 <= index < Z.of_nat (List.length (shards s)) ->
  exists o, shards s !! Z.to_nat index = Some o /\ Shard s key = Ok o.
Proof.
  intros Hf Hi Hin. unfold Shard. rewrite Hf, Hi.
  destruct (Z.ltb_spec index 0); [lia |].
  destruct (Z.gtb_spec index (Z.of_nat (List.length (shards s)) - 1)); [lia |].
  simpl. unfold slice_get.
  destruct (Z.ltb_spec index 0); [lia |].
  destruct (Z.leb_spec (Z.of_nat (List.length (shards s))) index); [lia |].
  simpl.
  destruct (lookup_lt_is_Some_2 (shards s) (Z.to_nat index) ltac:(lia))
    as [o Ho].
  exists o. by rewrite Ho.
Qed.

(** ** Health check *)

Section HealthCheck.

Variable px : Pgxpool.

Lemma Ping_loop_ok (pools : list Pool) :
  forall w : World,
    all_pings_ok px w pools ->
    Ping_loop px (List.map Some pools) w = (Ok tt, with_pinged w pools).
Proof.
  unfold all_pings_ok, with_pinged.
  induction pools as [| pl pools IH]; intros w Hok.
  - destruct w. simpl. unfold ret. simpl. by rewrite app_nil_r.
  - simpl. unfold bind at 1, pool_Ping.
    pose proof (Hok O pl eq_refl) as Hfirst.
    rewrite Nat.add_0_r in Hfirst. rewrite Hfirst.
    rewrite IH; simpl.
    + by rewrite <- app_assoc.
    + intros j pl' Hj. rewrite length_app. simpl.
      replace (List.length (pinged w) + 1 + j)%nat
        with (List.length (pinged w) + S j)%nat by lia.
      by apply Hok.
Qed.

Lemma Ping_loop_fail (pools : list Pool) :
  forall (w : World) (p : nat) (msg : string),
    first_ping_failure px w pools p msg ->
    Ping_loop px (List.map Some pools) w
    = (Err (Foreign msg), with_pinged w (take (S p) pools)).
Proof.
  unfold first_ping_failure, with_pinged.
  induction pools as [| pl0 pools IH]; intros w p msg [(pl & Hp & Hbad) Hok];
    [done |].
  simpl Ping_loop. unfold bind at 1, pool_Ping.
  destruct p as [| p].
  - simpl in Hp. injection Hp as ->.
    rewrite Nat.add_0_r in Hbad. rewrite Hbad. unfold fail. simpl.
    by rewrite take_0.
  - pose proof (Hok O pl0 ltac:(lia) eq_refl) as Hfirst.
    rewrite Nat.add_0_r in Hfirst. rewrite Hfirst.
    rewrite (IH _ p msg); simpl.
    + by rewrite <- app_assoc.
    + split.
      * exists pl. split; [done |]. rewrite length_app. simpl.
        by replace (List.length (pinged w) + 1 + p)%nat
          with (List.length (pinged w) + S p)%nat by lia.
      * intros j pl' Hj Hlook. rewrite length_app. simpl.
        replace (List.length (pinged w) + 1 + j)%nat
          with (List.length (pinged w) + S j)%nat by lia.
        apply Hok; [lia | done].
Qed.

End HealthCheck.

(** ** The routing claims *)

Lemma New_no_targets {port : GoInt.Port} (px : Pgxpool) (w : World) :
  New px [] w = (Ok empty_manager, w).
Proof. reflexivity. Qed.

(** On the manager without shards the default strategy divides by the
    shard count before the range check of [Shard] is reached. *)
Lemma Shard_empty_manager {port : GoInt.Port} (key : ShardKey) :
  supported key = true -> Shard empty_manager key = Panic DivideByZero.
Proof.
  intros Hkey. apply (Shard_panic _ _ defaultShardIndexFunc); [done |].
  by apply default_zero_shards.
Qed.

Lemma Shard_empty_manager_unsupported {port : GoInt.Port} (key : ShardKey) :
  supported key = false -> Shard empty_manager key = Err KeyTypeNotSupported.
Proof.
  intros Hkey. apply (Shard_error _ _ defaultShardIndexFunc); [done |].
  by apply default_unsupported_key.
Qed.

(** C1 (the code departs from the claim).  Constructing with no target
    succeeds and yields the manager with zero shards, but a lookup on it
    with an integer or a text key does not fail with a routing error: the
    default strategy computes [key % 0] and the call panics with an integer
    division by zero. *)
Theorem empty_manager_lookup_divides_by_zero {port : GoInt.Port}
        (px : Pgxpool) (w : World) :
  New px [] w = (Ok empty_manager, w)
  /\ shards empty_manager = []
  /\ numShards empty_manager = 0
  /\ defaultShardIndexFunc (KInt 7) 0 = Panic DivideByZero
  /\ Shard empty_manager (KInt 7) = Panic DivideByZero
  /\ Shard empty_manager (KString "user-42") = Panic DivideByZero.
Proof. repeat split; reflexivity. Qed.

(** C2 (the code departs from the claim).  For a negative key the default
    strategy returns Go's remainder, which has the sign of the key: key -7
    with 3 shards gives -1, not [(-7) mod 3 = 2], for each of the three
    integer types, and the lookup then fails its range check. *)
Theorem default_negative_key_index {port : GoInt.Port} :
  defaultShardIndexFunc (KInt (-7)) 3 = Ok (-1)
  /\ defaultShardIndexFunc (KInt32 (-7)) 3 = Ok (-1)
  /\ defaultShardIndexFunc (KInt64 (-7)) 3 = Ok (-1)
  /\ (-7) mod 3 = 2
  /\ exists m w,
      New px_up ["A"; "B"; "C"]%string empty_world = (Ok m, w)
      /\ numShards m = 3
      /\ Shard m (KInt (-7)) = Err (IndexOutOfRange (-1)).
Proof.
  assert (Hfit : GoInt.in_int (-7))
    by (apply in_int32_in_int; unfold GoInt.in_int32; lia).
  split; [reflexivity |].
  split; [unfold defaultShardIndexFunc; by rewrite to_int_id |].
  split; [unfold defaultShardIndexFunc; by rewrite to_int_id |].
  split; [reflexivity |].
  eexists _, _. repeat split; reflexivity.
Qed.

(** C3.  On every manager [New] returned, after any calls made on it
    since, a strategy answer outside [0, numShards) makes [Shard] return
    the out-of-range error carrying that very index: no pool, no panic
    from the slice access, no index moved into range. *)
Theorem Shard_rejects_out_of_range {port : GoInt.Port}
        (px : Pgxpool) (targets : list string) (w w' w'' : World)
        (m s : ShardManager) (cs : list call)
        (key : ShardKey) (f : strategy) (index : Z) :
  New px targets w = (Ok m, w') ->
  exec_all px cs (m, w') = (s, w'') ->
  shardIndexFunc s = Some f ->
  f key (numShards s) = Ok index ->
  ~ (0 <= index < numShards s) ->
  Shard s key = Err (IndexOutOfRange index).
Proof.
  intros Hnew Hexec Hf Hindex Hout.
  apply New_wf in Hnew.
  destruct (exec_all_wf px cs m s w' w'' Hexec Hnew) as [Hnum _].
  apply (Shard_out_of_range s key f index Hf Hindex). lia.
Qed.

Lemma Shard_rejects_out_of_range_witness :
  New px_up ["A"; "B"]%string empty_world
  = (Ok (mkShardManager [Some (mkPool 0 "A"); Some (mkPool 1 "B")] 2
                        (Some defaultShardIndexFunc)),
     mkWorld ["A"; "B"]%string [mkPool 0 "A"; mkPool 1 "B"] [] [])
  /\ Shard (mkShardManager [Some (mkPool 0 "A"); Some (mkPool 1 "B")] 2
                           (Some strategy_count))
           (KInt 5)
     = Err (IndexOutOfRange 2).
Proof.
  split; [reflexivity |].
  apply (Shard_rejects_out_of_range
           px_up ["A"; "B"]%string empty_world
           (mkWorld ["A"; "B"]%string [mkPool 0 "A"; mkPool 1 "B"] [] [])
           (mkWorld ["A"; "B"]%string [mkPool 0 "A"; mkPool 1 "B"] [] [])
           (mkShardManager [Some (mkPool 0 "A"); Some (mkPool 1 "B")] 2
                           (Some defaultShardIndexFunc))
           _
           [CallShard (KInt 1); CallSetShardIndexFunc (Some strategy_count)]
           (KInt 5) strategy_count 2);
    [reflexivity | reflexivity | reflexivity | reflexivity | simpl; lia].
Defined.

(** Where [int] has 64 bits a [uint32] keeps its value in the conversion to
    [int]: there the default strategy returns, for a text key and at least
    one shard, the IEEE CRC-32 of the key's bytes modulo the shard count,
    an index in range. *)
Lemma in_uint32_in_int {port : GoInt.Port} (v : Z) :
  GoInt.intSize = 64 -> GoInt.in_uint32 v -> GoInt.in_int v.
Proof.
  intros H64 Hv. by apply in_int64_in_int, in_uint32_in_int64.
Qed.

Lemma ChecksumIEEE_u32 (v : string) :
  GoInt.in_uint32 (crc32.ChecksumIEEE (bytes_of_string v)).
Proof.
  pose proof (bytes_of_string_bytes v) as Hbytes.
  rewrite (ChecksumIEEE_bitwise _ Hbytes).
  by apply crc32_ieee_bitwise_u32.
Qed.

Lemma default_string_key_64 {port : GoInt.Port} (v : string) (N : Z) :
  GoInt.intSize = 64 ->
  1 <= N ->
  defaultShardIndexFunc (KString v) N
  = Ok (crc32.crc32_ieee_bitwise (bytes_of_string v) mod N)
  /\ crc32.ChecksumIEEE (bytes_of_string v)
     = crc32.crc32_ieee_bitwise (bytes_of_string v)
  /\ 0 <= crc32.crc32_ieee_bitwise (bytes_of_string v) mod N < N.
Proof.
  intros H64 HN.
  pose proof (bytes_of_string_bytes v) as Hbytes.
  pose proof (ChecksumIEEE_bitwise _ Hbytes) as Hcrc.
  pose proof (ChecksumIEEE_u32 v) as Hu32.
  split; [| split; [done | apply Z.mod_pos_bound; lia]].
  unfold defaultShardIndexFunc.
  rewrite to_int_id by by apply in_uint32_in_int.
  rewrite int_rem_nonzero by lia. rewrite <- Hcrc.
  unfold GoInt.in_uint32 in Hu32. by rewrite Z.rem_mod_nonneg by lia.
Qed.

(** On either port, what the strategy computes for a text key: the
    remainder of the checksum after its conversion to [int]. *)
Lemma default_string_key_any {port : GoInt.Port} (v : string) (N : Z) :
  N <> 0 ->
  defaultShardIndexFunc (KString v) N
  = Ok (Z.rem (GoInt.to_int (crc32.ChecksumIEEE (bytes_of_string v))) N).
Proof. intros HN. unfold defaultShardIndexFunc. by apply int_rem_nonzero. Qed.

(** C4 (the code departs from the claim).  Line 24 converts the checksum,
    a [uint32], to [int] before taking the remainder.  Where [int] has 32
    bits a checksum with its top bit set becomes negative in the
    conversion: the key "a" has the IEEE CRC-32 0xe8b7be43, which is 0
    modulo 3, but with 3 shards the strategy returns -1 there, and the
    lookup fails its range check.  Where [int] has 64 bits the same key is
    routed to index 0. *)
Theorem default_string_key_wraps_32_bit_int :
  crc32.ChecksumIEEE (bytes_of_string "a") = 0xe8b7be43
  /\ crc32.crc32_ieee_bitwise (bytes_of_string "a") = 0xe8b7be43
  /\ 0xe8b7be43 mod 3 = 0
  /\ defaultShardIndexFunc (port := GoInt.i386) (KString "a") 3 = Ok (-1)
  /\ defaultShardIndexFunc (port := GoInt.amd64) (KString "a") 3 = Ok 0
  /\ exists m w,
      New (port := GoInt.i386) px_up ["A"; "B"; "C"]%string empty_world
      = (Ok m, w)
      /\ Shard m (KString "a") = Err (IndexOutOfRange (-1)).
Proof.
  split; [vm_compute; reflexivity |]. split; [vm_compute; reflexivity |].
  split; [reflexivity |]. split; [vm_compute; reflexivity |].
  split; [vm_compute; reflexivity |].
  eexists _, _. split; [reflexivity | vm_compute; reflexivity].
Qed.

(** C9.  A key whose dynamic type has no case in the type switch makes
    the default strategy fail with the unsupported-key-type error, for any
    shard count, and [Shard] on a manager that uses the default strategy
    returns that error and no pool. *)
Theorem unsupported_key_error {port : GoInt.Port} (key : ShardKey) :
  supported key = false ->
  (forall N, defaultShardIndexFunc key N = Err KeyTypeNotSupported)
  /\ (forall s, shardIndexFunc s = Some defaultShardIndexFunc ->
                Shard s key = Err KeyTypeNotSupported).
Proof.
  intros Hkey. split.
  - intros N. by apply default_unsupported_key.
  - intros s Hs. apply (Shard_error s key defaultShardIndexFunc); [done |].
    by apply default_unsupported_key.
Qed.

Lemma unsupported_key_error_witness :
  supported (KFloat64 3 (-1)) = false
  /\ defaultShardIndexFunc (KFloat64 3 (-1)) 4 = Err KeyTypeNotSupported
  /\ Shard (mkShardManager [Some (mkPool 0 "A")] 1 (Some defaultShardIndexFunc))
           (KFloat64 3 (-1))
     = Err KeyTypeNotSupported.
Proof.
  split; [reflexivity |]. split.
  - apply (proj1 (unsupported_key_error (KFloat64 3 (-1)) eq_refl)).
  - apply (proj2 (unsupported_key_error (KFloat64 3 (-1)) eq_refl)).
    reflexivity.
Defined.

(** ** The construction claims *)

Lemma lookup_map_Some {A B} (f : A -> B) (l : list A) (i : nat) (x : A) :
  l !! i = Some x -> List.map f l !! i = Some (f x).
Proof.
  revert i. induction l as [| y l IH]; intros i Hi; [done |].
  destruct i as [| i]; simpl in *.
  - by injection Hi as ->.
  - by apply IH.
Qed.

(** C5.  When every target connects, [New] returns a manager whose
    shards are the pools opened for the targets, one per target and in the
    order of the targets, with [numShards] their number and the default
    strategy installed; [Shards] returns that sequence, then and after any
    calls made on the manager. *)
Theorem New_all_reachable {port : GoInt.Port}
        (px : Pgxpool) (targets : list string) (w : World) :
  all_dials_ok px w targets ->
  exists m w',
    New px targets w = (Ok m, w')
    /\ List.length (shards m) = List.length targets
    /\ numShards m = Z.of_nat (List.length targets)
    /\ shardIndexFunc m = Some defaultShardIndexFunc
    /\ (forall i t,
           targets !! i = Some t ->
           exists pl, shards m !! i = Some (Some pl)
                      /\ pool_target pl = t
                      /\ opened w' !! (List.length (opened w) + i)%nat = Some pl)
    /\ Shards m = Ok (shards m)
    /\ (forall cs s w'',
           exec_all px cs (m, w') = (s, w'') -> Shards s = Ok (shards m)).
Proof.
  intros Hok. eexists _, _. split; [by apply New_ok |]. simpl.
  split; [by rewrite length_map, pools_from_length |].
  split; [done |]. split; [done |]. split; [| split; [done |]].
  - intros i t Hi.
    exists (mkPool (List.length (opened w) + i) t).
    pose proof (pools_from_lookup (List.length (opened w)) i targets t Hi) as Hp.
    split; [by apply lookup_map_Some |]. split; [done |].
    rewrite lookup_app_r by lia.
    by replace (List.length (opened w) + i - List.length (opened w))%nat
      with i by lia.
  - intros cs s w'' Hexec. unfold Shards.
    by apply exec_all_shards in Hexec as [-> _].
Qed.

Lemma New_all_reachable_witness :
  all_dials_ok px_up empty_world ["A"; "B"; "C"]%string
  /\ exists m w',
      New px_up ["A"; "B"; "C"]%string empty_world = (Ok m, w')
      /\ List.length (shards m) = 3%nat
      /\ numShards m = 3.
Proof.
  assert (Hok : all_dials_ok px_up empty_world ["A"; "B"; "C"]%string)
    by (intros j t _; reflexivity).
  split; [exact Hok |].
  destruct (New_all_reachable px_up ["A"; "B"; "C"]%string empty_world Hok)
    as (m & w' & Hnew & Hlen & Hnum & _).
  exists m, w'. split; [exact Hnew |]. split; [exact Hlen | exact Hnum].
Defined.

(** C6.  When the target at position [p] is the first that does not
    connect, [New] returns no manager but the connect error, which carries
    [p] and the cause, and [pgxpool.New] was called for the targets up to
    [p] and for none after it. *)
Theorem New_unreachable_target {port : GoInt.Port}
        (px : Pgxpool) (targets : list string) (w : World)
        (p : nat) (cause : string) :
  first_dial_failure px w targets p cause ->
  exists w',
    New px targets w = (Err (ConnectFailed (Z.of_nat p) cause), w')
    /\ Error (ConnectFailed (Z.of_nat p) cause)
       = ("failed to connect to shard " ++ fmt_d (Z.of_nat p) ++ ": "
          ++ cause)%string
    /\ (forall m w'', New px targets w <> (Ok m, w''))
    /\ dialed w' = dialed w ++ take (S p) targets.
Proof.
  intros [(t & Hp & Hbad) Hok].
  eexists. split; [by apply (New_fail px targets w p t cause) |].
  split; [done |]. split; [| done].
  intros m w''. by rewrite (New_fail px targets w p t cause).
Qed.

Lemma New_unreachable_target_witness :
  first_dial_failure (px_refusing "B") empty_world ["A"; "B"; "C"]%string 1
                     "connection refused"
  /\ exists w',
      New (px_refusing "B") ["A"; "B"; "C"]%string empty_world
      = (Err (ConnectFailed 1 "connection refused"), w')
      /\ dialed w' = ["A"; "B"]%string.
Proof.
  assert (Hfail : first_dial_failure (px_refusing "B") empty_world
                    ["A"; "B"; "C"]%string 1 "connection refused").
  { split.
    - exists "B"%string. split; reflexivity.
    - intros j t Hj Hlook. destruct j as [| j]; [| lia].
      simpl in Hlook. injection Hlook as <-. reflexivity. }
  split; [exact Hfail |].
  destruct (New_unreachable_target (px_refusing "B") ["A"; "B"; "C"]%string
              empty_world 1 "connection refused" Hfail)
    as (w' & Hnew & _ & _ & Hdialed).
  exists w'. split; [exact Hnew | exact Hdialed].
Defined.

(** A failed construction closes nothing: the pools opened for the targets
    before the failing one are all still open when [New] returns. *)
Lemma New_failure_closes_nothing {port : GoInt.Port}
      (px : Pgxpool) (targets : list string) (w : World)
      (p : nat) (cause : string) :
  first_dial_failure px w targets p cause ->
  exists w',
    New px targets w = (Err (ConnectFailed (Z.of_nat p) cause), w')
    /\ opened w' = opened w ++ pools_from (List.length (opened w)) (take p targets)
    /\ closed w' = closed w.
Proof.
  intros [(t & Hp & Hbad) Hok].
  eexists. split; [by apply (New_fail px targets w p t cause) |]. done.
Qed.

Lemma pools_from_id_ge (n : nat) (targets : list string) (pl : Pool) :
  In pl (pools_from n targets) -> (n <= pool_id pl)%nat.
Proof.
  revert n. induction targets as [| t rest IH]; intros n; simpl; [done |].
  intros [<- | Hin]; [simpl; lia |].
  apply IH in Hin. lia.
Qed.

(** In a world where the closed pools are pools opened earlier, every pool
    a failed construction had opened is live when [New] returns. *)
Lemma New_failure_leaves_pools_live {port : GoInt.Port}
      (px : Pgxpool) (targets : list string) (w : World)
      (p : nat) (cause : string) :
  first_dial_failure px w targets p cause ->
  (forall pl, In pl (closed w) -> (pool_id pl < List.length (opened w))%nat) ->
  exists w',
    New px targets w = (Err (ConnectFailed (Z.of_nat p) cause), w')
    /\ forall pl,
        In pl (pools_from (List.length (opened w)) (take p targets)) ->
        In pl (live w').
Proof.
  intros Hfail Hclosed.
  destruct (New_failure_closes_nothing px targets w p cause Hfail)
    as (w' & Hnew & Hopened & Hsame).
  exists w'. split; [done |].
  intros pl Hpl. unfold live. apply filter_In. split.
  - rewrite Hopened. apply in_or_app. by right.
  - rewrite Hsame. apply negb_true_iff, bool_decide_eq_false_2.
    intros Hin%list_elem_of_In.
    apply Hclosed in Hin. apply pools_from_id_ge in Hpl. lia.
Qed.

(** C7 (the code departs from the claim).  With targets A and B, where A
    connects and B does not, [New] returns the connect error for position
    1 while the pool opened for A has not been closed: it is still live,
    and no manager exists through which it could be closed. *)
Theorem New_partial_failure_leaks {port : GoInt.Port} :
  exists w',
    New (px_refusing "B") ["A"; "B"]%string empty_world
    = (Err (ConnectFailed 1 "connection refused"), w')
    /\ opened w' = [mkPool 0 "A"]
    /\ closed w' = []
    /\ live w' = [mkPool 0 "A"].
Proof. eexists. repeat split; reflexivity. Qed.

(** ** The health check claim *)

(** C8, as stated, fails: [Ping] returns the error of the pool as it is,
    so the same error comes back whether the shard that timed out is at
    position 0 or at position 1, and no position can be read off it. *)
Lemma Ping_error_has_no_position : ~ Ping_error_identifies_position.
Proof.
  intros [position_of Hpos].
  set (px := px_timing_out "down").
  set (msg := "context deadline exceeded"%string).
  set (poolsA := [mkPool 0 "down"; mkPool 1 "up"]).
  set (poolsB := [mkPool 0 "up"; mkPool 1 "down"]).
  assert (HA : first_ping_failure px empty_world poolsA 0 msg).
  { split; [exists (mkPool 0 "down"); split; reflexivity |]. intros; lia. }
  assert (HB : first_ping_failure px empty_world poolsB 1 msg).
  { split; [exists (mkPool 1 "down"); split; reflexivity |].
    intros j pl Hj Hlook. destruct j as [| j]; [| lia].
    simpl in Hlook. injection Hlook as <-. reflexivity. }
  destruct (Hpos px (mkShardManager (List.map Some poolsA) 2
                                    (Some defaultShardIndexFunc))
                 empty_world poolsA 0%nat msg eq_refl HA)
    as (eA & wA & HpingA & HposA).
  destruct (Hpos px (mkShardManager (List.map Some poolsB) 2
                                    (Some defaultShardIndexFunc))
                 empty_world poolsB 1%nat msg eq_refl HB)
    as (eB & wB & HpingB & HposB).
  vm_compute in HpingA, HpingB.
  injection HpingA as <- _. injection HpingB as <- _.
  congruence.
Qed.

Example Ping_same_error_two_positions :
  fst (Ping (px_timing_out "down")
            (mkShardManager [Some (mkPool 0 "down"); Some (mkPool 1 "up")] 2
                            (Some defaultShardIndexFunc))
            empty_world)
  = fst (Ping (px_timing_out "down")
              (mkShardManager [Some (mkPool 0 "up"); Some (mkPool 1 "down")] 2
                              (Some defaultShardIndexFunc))
              empty_world).
Proof. reflexivity. Qed.

(** C8, amended.  [Ping] returns no error when every shard answers; when
    the shard at position [p] is the first that does not, it returns that
    shard's own error unchanged, after pinging the shards up to [p] in
    order and none after it. *)
Theorem Ping_first_failure
        (px : Pgxpool) (s : ShardManager) (w : World) (pools : list Pool) :
  shards s = List.map Some pools ->
  (all_pings_ok px w pools -> Ping px s w = (Ok tt, with_pinged w pools))
  /\ (forall p msg,
         first_ping_failure px w pools p msg ->
         Ping px s w = (Err (Foreign msg), with_pinged w (take (S p) pools))).
Proof.
  intros Hs. unfold Ping. rewrite Hs. split.
  - apply Ping_loop_ok.
  - intros p msg. apply Ping_loop_fail.
Qed.

Lemma Ping_first_failure_witness :
  shards manager_up_down_up = List.map Some pools_up_down_up
  /\ Ping px_up manager_up_down_up empty_world
     = (Ok tt, mkWorld [] [] pools_up_down_up [])
  /\ Ping (px_timing_out "down") manager_up_down_up empty_world
     = (Err (Foreign "context deadline exceeded"),
        mkWorld [] [] [mkPool 0 "up"; mkPool 1 "down"] []).
Proof.
  split; [reflexivity |]. split.
  - apply (proj1 (Ping_first_failure px_up manager_up_down_up empty_world
                    pools_up_down_up eq_refl)).
    intros j pl _. reflexivity.
  - apply (proj2 (Ping_first_failure (px_timing_out "down") manager_up_down_up
                    empty_world pools_up_down_up eq_refl)
                 1%nat "context deadline exceeded"%string).
    split.
    + exists (mkPool 1 "down"). split; reflexivity.
    + intros j pl Hj Hlook. destruct j as [| j]; [| lia].
      simpl in Hlook. injection Hlook as <-. reflexivity.
Defined.

(** ** The lock discipline *)

Module SyncFacts.

Import Sync.

Lemma init_guarded_inv (progs : list (list event)) :
  Forall (fun es => guarded es = true) progs -> guarded_inv (init progs).
Proof.
  intros Hall t k Hk. simpl in *.
  rewrite Forall_forall in Hall.
  apply Hall. by eapply list_elem_of_lookup_2.
Qed.

Lemma step_guarded_inv (t : nat) (st st' : state) :
  step t st = Some st' -> guarded_inv st -> guarded_inv st'.
Proof.
  unfold step, guarded_inv. intros Hstep Hinv t' k' Hk'.
  destruct (threads st !! t) as [[| e k] |] eqn:Ht; try done.
  pose proof (Hinv t _ Ht) as Hself.
  pose proof (lookup_lt_Some _ _ _ Ht) as Hlt.
  assert (Hother : t' <> t -> threads st !! t' = Some k' ->
                   guarded_from (bool_decide (holder st = Some t')) k' = true)
    by (intros _; apply Hinv).
  destruct e.
  - destruct (holder st) as [h |] eqn:Hh; [done |].
    injection Hstep as <-. simpl in *.
    destruct (decide (t' = t)) as [-> | Hne].
    + rewrite list_lookup_insert_eq in Hk' by done. injection Hk' as <-.
      by rewrite bool_decide_eq_true_2.
    + rewrite list_lookup_insert_ne in Hk' by done.
      rewrite bool_decide_eq_false_2 by congruence.
      exact (Hother Hne Hk').
  - destruct (decide (holder st = Some t)) as [Hh | Hh]; [| done].
    injection Hstep as <-. simpl in *.
    destruct (decide (t' = t)) as [-> | Hne].
    + rewrite list_lookup_insert_eq in Hk' by done. injection Hk' as <-.
      exact Hself.
    + rewrite list_lookup_insert_ne in Hk' by done.
      specialize (Hother Hne Hk').
      by rewrite bool_decide_eq_false_2 in Hother by congruence.
  - injection Hstep as <-. simpl in *.
    destruct (decide (t' = t)) as [-> | Hne].
    + rewrite list_lookup_insert_eq in Hk' by done. injection Hk' as <-.
      by apply andb_prop in Hself as [_ ?].
    + rewrite list_lookup_insert_ne in Hk' by done. by apply Hother.
  - injection Hstep as <-. simpl in *.
    destruct (decide (t' = t)) as [-> | Hne].
    + rewrite list_lookup_insert_eq in Hk' by done. injection Hk' as <-.
      by apply andb_prop in Hself as [_ ?].
    + rewrite list_lookup_insert_ne in Hk' by done. by apply Hother.
Qed.

Lemma run_guarded_inv (schedule : list nat) :
  forall st st', run schedule st = Some st' -> guarded_inv st -> guarded_inv st'.
Proof.
  induction schedule as [| t schedule IH]; intros st st'; simpl.
  - by intros [= <-].
  - destruct (step t st) as [st1 |] eqn:Hstep; [| done].
    intros Hrun Hinv. eapply IH; [done |]. by eapply step_guarded_inv.
Qed.

(** A goroutine about to access a field holds the mutex. *)
Lemma guarded_inv_access (st : state) (t : nat) (e : event) :
  guarded_inv st -> next st t = Some e -> e <> Lock -> e <> Unlock ->
  holder st = Some t.
Proof.
  unfold next. intros Hinv Hnext Hl Hu.
  destruct (threads st !! t) as [[| e' k] |] eqn:Ht; try done.
  injection Hnext as ->.
  specialize (Hinv t _ Ht).
  destruct (bool_decide (holder st = Some t)) eqn:Hb.
  - by apply bool_decide_eq_true_1 in Hb.
  - by destruct e.
Qed.

(** Methods that access the fields only between [Lock] and [Unlock] do not
    race with each other, under any schedule: [SetShardIndexFunc], [Shards],
    [Ping] and [Close] are of that kind. *)
Lemma guarded_race_free
      (progs : list (list event)) (schedule : list nat) (st : state)
      (t1 t2 : nat) (f : field) :
  Forall (fun es => guarded es = true) progs ->
  run schedule (init progs) = Some st ->
  ~ race st t1 t2 f.
Proof.
  intros Hall Hrun (Hne & Hw & Hr).
  pose proof (run_guarded_inv schedule _ _ Hrun (init_guarded_inv _ Hall))
    as Hinv.
  pose proof (guarded_inv_access st t1 _ Hinv Hw ltac:(done) ltac:(done)) as H1.
  assert (H2 : holder st = Some t2)
    by (destruct Hr as [Hr | Hr];
        apply (guarded_inv_access st t2 _ Hinv Hr); done).
  congruence.
Qed.

Lemma locking_methods_guarded :
  Forall (fun es => guarded es = true)
         [SetShardIndexFunc_events; Shards_events; Ping_events; Close_events].
Proof. repeat constructor. Qed.

(** C10 (the code departs from the claim).  [SetShardIndexFunc] writes the
    strategy between [Lock] and [Unlock], but [Shard] takes no lock: with
    one goroutine in each, after the first has locked the mutex it is about
    to write the strategy while the second is about to read it, and the
    read is not held back.  The two accesses are not mutually exclusive. *)
Theorem Shard_reads_strategy_outside_lock :
  guarded SetShardIndexFunc_events = true
  /\ guarded Shard_events = false
  /\ exists st,
      run [0%nat] (init [SetShardIndexFunc_events; Shard_events]) = Some st
      /\ holder st = Some 0%nat
      /\ race st 0 1 FShardIndexFunc
      /\ is_Some (step 1 st).
Proof.
  split; [reflexivity |]. split; [reflexivity |].
  eexists. split; [reflexivity |]. split; [reflexivity |]. split.
  - split; [done |]. split; [reflexivity | left; reflexivity].
  - by eexists.
Qed.

End SyncFacts.

(** ** Worked examples *)

Example default_7_3 : defaultShardIndexFunc (KInt 7) 3 = Ok 1.
Proof. reflexivity. Qed.

Example Shard_7_of_ABC :
  exists m w,
    New px_up ["A"; "B"; "C"]%string empty_world = (Ok m, w)
    /\ Shard m (KInt 7) = Ok (Some (mkPool 1 "B")).
Proof. eexists _, _. split; reflexivity. Qed.

(** Where [int] has 32 bits an [int64] key outside its range wraps on line
    22 before the remainder is taken. *)
Example int64_key_wraps_32_bit_int :
  defaultShardIndexFunc (port := GoInt.i386) (KInt64 (2 ^ 63 - 1)) 10 = Ok (-1)
  /\ defaultShardIndexFunc (port := GoInt.amd64) (KInt64 (2 ^ 63 - 1)) 10 = Ok 7
  /\ defaultShardIndexFunc (port := GoInt.i386) (KInt64 (- 2 ^ 32)) 3 = Ok 0
  /\ defaultShardIndexFunc (port := GoInt.amd64) (KInt64 (- 2 ^ 32)) 3
     = Ok (-1).
Proof. repeat split; vm_compute; reflexivity. Qed.

Example crc_check_value :
  crc32.ChecksumIEEE (bytes_of_string "123456789") = 0xcbf43926.
Proof. vm_compute. reflexivity. Qed.

Example crc_bitwise_check_value :
  crc32.crc32_ieee_bitwise (bytes_of_string "123456789") = 0xcbf43926.
Proof. vm_compute. reflexivity. Qed.

Example crc_empty : crc32.ChecksumIEEE [] = 0.
Proof. reflexivity. Qed.

Example Shard_user42_of_AB :
  exists m w,
    New px_up ["A"; "B"]%string empty_world = (Ok m, w)
    /\ crc32.ChecksumIEEE (bytes_of_string "user-42") mod 2 = 1
    /\ Shard m (KString "user-42") = Ok (Some (mkPool 1 "B")).
Proof. eexists _, _. repeat split; vm_compute; reflexivity. Qed.

Example Error_connect :
  Error (ConnectFailed 12 "connection refused")
  = "failed to connect to shard 12: connection refused"%string.
Proof. reflexivity. Qed.

Example Error_range :
  Error (IndexOutOfRange (-1)) = "shard index -1 is out of range"%string.
Proof. reflexivity. Qed.

(** A nil strategy installed by [SetShardIndexFunc] makes the next lookup
    panic. *)
Example Shard_nil_strategy :
  Shard (SetShardIndexFunc manager_up_down_up None) (KInt 0)
  = Panic NilDereference.
Proof. reflexivity. Qed.

(** [Close] closes every shard, in order. *)
Example Close_up_down_up :
  Close manager_up_down_up (mkWorld [] pools_up_down_up [] [])
  = (Ok tt, mkWorld [] pools_up_down_up [] pools_up_down_up)
  /\ live (mkWorld [] pools_up_down_up [] pools_up_down_up) = [].
Proof. split; reflexivity. Qed.

(** * Further properties of the code *)

(** ** Shutdown *)

Lemma Close_loop_all (pools : list Pool) :
  forall w : World,
    Close_loop (List.map Some pools) w = (Ok tt, with_closed w pools).
Proof.
  unfold with_closed.
  induction pools as [| pl pools IH]; intros w.
  - destruct w. simpl. unfold ret. simpl. by rewrite app_nil_r.
  - simpl. unfold bind at 1, pool_Close. rewrite IH. simpl.
    by rewrite <- app_assoc.
Qed.

Lemma filter_none {A} (f : A -> bool) (l : list A) :
  (forall x, In x l -> f x = false) -> List.filter f l = [].
Proof.
  induction l as [| x l IH]; intros Hf; simpl; [done |].
  rewrite (Hf x) by by left. apply IH. intros y Hy. apply Hf. by right.
Qed.

Lemma filter_all {A} (f : A -> bool) (l : list A) :
  (forall x, In x l -> f x = true) -> List.filter f l = l.
Proof.
  induction l as [| x l IH]; intros Hf; simpl; [done |].
  rewrite (Hf x) by by left. f_equal. apply IH. intros y Hy. apply Hf. by right.
Qed.

Lemma live_with_closed_fresh (w : World) (pools : list Pool) :
  (forall pl, In pl (opened w) -> ~ In pl pools) ->
  live (with_closed w pools) = live w.
Proof.
  intros Hfresh. unfold live, with_closed. simpl.
  apply List.filter_ext_in. intros pl Hpl. f_equal.
  apply bool_decide_ext. rewrite elem_of_app, !list_elem_of_In.
  specialize (Hfresh pl Hpl). tauto.
Qed.

Lemma Close_all (s : ShardManager) (w : World) (pools : list Pool) :
  shards s = List.map Some pools -> Close s w = (Ok tt, with_closed w pools).
Proof. intros Hs. unfold Close. rewrite Hs. apply Close_loop_all. Qed.

(** X1.  [Close] on a manager whose shards are all non-nil returns a nil
    error after calling [Close] on the pool of every shard, once each and
    in the order of the shards; it dials, opens and pings nothing. *)
Theorem Close_closes_every_shard
        (s : ShardManager) (w : World) (pools : list Pool) :
  shards s = List.map Some pools ->
  Close s w
  = (Ok tt, mkWorld (dialed w) (opened w) (pinged w) (closed w ++ pools)).
Proof.
  intros Hs. unfold Close. rewrite Hs.
  apply (Close_loop_all pools w).
Qed.

Lemma Close_closes_every_shard_witness :
  shards manager_up_down_up = List.map Some pools_up_down_up
  /\ Close manager_up_down_up (mkWorld [] pools_up_down_up [] [])
     = (Ok tt, mkWorld [] pools_up_down_up [] pools_up_down_up).
Proof.
  split; [reflexivity |].
  apply (Close_closes_every_shard manager_up_down_up
           (mkWorld [] pools_up_down_up [] []) pools_up_down_up).
  reflexivity.
Defined.

(** X2.  Construction followed by shutdown gives back every pool: when all
    targets connect, after [New] the live pools are those live before plus
    the new shards, and after [Close] on the manager they are again exactly
    those live before [New]. *)
Theorem New_then_Close_releases {port : GoInt.Port}
        (px : Pgxpool) (targets : list string) (w : World) :
  all_dials_ok px w targets ->
  world_wf w ->
  exists m w1 w2,
    New px targets w = (Ok m, w1)
    /\ live w1 = live w ++ pools_from (List.length (opened w)) targets
    /\ Close m w1 = (Ok tt, w2)
    /\ closed w2 = closed w ++ pools_from (List.length (opened w)) targets
    /\ live w2 = live w.
Proof.
  intros Hok [Hopened Hclosed].
  set (pools := pools_from (List.length (opened w)) targets).
  assert (Hfresh : forall pl, In pl pools -> ~ In pl (closed w)).
  { intros pl Hpl Hin. apply Hclosed in Hin.
    apply pools_from_id_ge in Hpl. lia. }
  assert (Hold : forall pl, In pl (opened w) -> ~ In pl pools).
  { intros pl Hin Hpl. apply Hopened in Hin.
    apply pools_from_id_ge in Hpl. lia. }
  eexists _, _, _. split; [by apply New_ok |].
  split; [| split; [by apply Close_all |]]; simpl.
  - unfold live. simpl. rewrite List.filter_app. f_equal. fold pools.
    apply filter_all. intros pl Hpl.
    apply negb_true_iff, bool_decide_eq_false_2.
    rewrite list_elem_of_In. by apply Hfresh.
  - split; [done |]. fold pools. unfold live. simpl.
    rewrite List.filter_app.
    rewrite (filter_none _ pools).
    + rewrite app_nil_r. apply List.filter_ext_in. intros pl Hpl. f_equal.
      apply bool_decide_ext. rewrite elem_of_app, !list_elem_of_In.
      specialize (Hold pl Hpl). tauto.
    + intros pl Hpl. apply negb_false_iff, bool_decide_eq_true_2.
      rewrite elem_of_app, !list_elem_of_In. by right.
Qed.

Lemma New_then_Close_releases_witness :
  all_dials_ok px_up empty_world ["A"; "B"]%string
  /\ world_wf empty_world
  /\ exists m w1 w2,
      New px_up ["A"; "B"]%string empty_world = (Ok m, w1)
      /\ live w1 = [mkPool 0 "A"; mkPool 1 "B"]
      /\ Close m w1 = (Ok tt, w2)
      /\ live w2 = [].
Proof.
  assert (Hok : all_dials_ok px_up empty_world ["A"; "B"]%string)
    by (intros j t _; reflexivity).
  assert (Hwf : world_wf empty_world) by (split; intros pl []).
  split; [exact Hok |]. split; [exact Hwf |].
  destruct (New_then_Close_releases px_up ["A"; "B"]%string empty_world Hok Hwf)
    as (m & w1 & w2 & Hnew & Hlive1 & Hclose & _ & Hlive2).
  exists m, w1, w2. repeat split; assumption.
Defined.

(** X3.  The manager keeps no record of having been closed: a second
    [Close] also returns a nil error and calls [Close] on every pool a
    second time; the live pools are the same after it as after the
    first. *)
Theorem Close_twice (s : ShardManager) (w : World) (pools : list Pool) :
  shards s = List.map Some pools ->
  exists w1 w2,
    Close s w = (Ok tt, w1)
    /\ Close s w1 = (Ok tt, w2)
    /\ closed w2 = closed w ++ pools ++ pools
    /\ live w2 = live w1.
Proof.
  intros Hs. eexists _, _.
  split; [by apply Close_all |].
  split; [by apply Close_all |]. simpl.
  split; [by rewrite <- app_assoc |].
  unfold live. simpl. apply List.filter_ext. intros pl. f_equal.
  apply bool_decide_ext. rewrite !elem_of_app. tauto.
Qed.

Lemma Close_twice_witness :
  shards manager_up_down_up = List.map Some pools_up_down_up
  /\ exists w1 w2,
      Close manager_up_down_up (mkWorld [] pools_up_down_up [] []) = (Ok tt, w1)
      /\ Close manager_up_down_up w1 = (Ok tt, w2)
      /\ closed w2 = pools_up_down_up ++ pools_up_down_up.
Proof.
  split; [reflexivity |].
  destruct (Close_twice manager_up_down_up (mkWorld [] pools_up_down_up [] [])
              pools_up_down_up eq_refl)
    as (w1 & w2 & H1 & H2 & Hclosed & _).
  exists w1, w2. repeat split; assumption.
Defined.

(** ** Lookup, further *)

(** What a successful lookup went through. *)
Lemma Shard_Ok_inv (s : ShardManager) (key : ShardKey) (o : option Pool) :
  Shard s key = Ok o ->
  exists f index,
    shardIndexFunc s = Some f
    /\ f key (numShards s) = Ok index
    /\ 0 <= index < Z.of_nat (List.length (shards s))
    /\ shards s !! Z.to_nat index = Some o.
Proof.
  unfold Shard. intros Hshard.
  destruct (shardIndexFunc s) as [f |]; [| done].
  destruct (f key (numShards s)) as [index | e | q] eqn:Hf; try done.
  destruct (Z.ltb_spec index 0); [done |].
  destruct (Z.gtb_spec index (Z.of_nat (List.length (shards s)) - 1)); [done |].
  simpl in Hshard. unfold slice_get in Hshard.
  destruct (Z.ltb_spec index 0); [lia |].
  destruct (Z.leb_spec (Z.of_nat (List.length (shards s))) index); [lia |].
  simpl in Hshard.
  destruct (shards s !! Z.to_nat index) as [o' |] eqn:Ho; [| done].
  injection Hshard as ->.
  exists f, index. repeat split; (done || lia).
Qed.

Lemma lookup_map_Some_inv {A} (l : list A) (i : nat) (o : option A) :
  List.map Some l !! i = Some o -> exists x, o = Some x /\ l !! i = Some x.
Proof.
  revert i. induction l as [| y l IH]; intros i Hi; [done |].
  destruct i as [| i]; simpl in *.
  - injection Hi as <-. by exists y.
  - by apply IH.
Qed.

(** X4.  [Close] does not disable the manager: a lookup that returned a
    pool before [Close] returns the same pool after it, although that pool
    has been closed. *)
Theorem Shard_after_Close
        (px : Pgxpool) (s : ShardManager) (w : World) (pools : list Pool)
        (key : ShardKey) (pl : Pool) :
  shards s = List.map Some pools ->
  Shard s key = Ok (Some pl) ->
  exists s' w',
    exec px CallClose (s, w) = (s', w')
    /\ Shard s' key = Ok (Some pl)
    /\ In pl (closed w')
    /\ ~ In pl (live w').
Proof.
  intros Hs Hshard. eexists _, _. split; [reflexivity |].
  split; [done |].
  rewrite (Close_all s w pools Hs). simpl.
  destruct (Shard_Ok_inv s key _ Hshard) as (f & index & _ & _ & _ & Hlook).
  rewrite Hs in Hlook.
  apply lookup_map_Some_inv in Hlook as (x & [= <-] & Hx).
  assert (Hin : In pl pools)
    by (apply list_elem_of_In; by eapply list_elem_of_lookup_2).
  split; [apply in_or_app; by right |].
  unfold live. rewrite filter_In. simpl. intros [_ Hnot].
  apply negb_true_iff, bool_decide_eq_false_1 in Hnot.
  apply Hnot. rewrite elem_of_app, !list_elem_of_In. by right.
Qed.

Lemma Shard_after_Close_witness :
  shards manager_up_down_up = List.map Some pools_up_down_up
  /\ Shard manager_up_down_up (KInt 4) = Ok (Some (mkPool 1 "down"))
  /\ exists s' w',
      exec px_up CallClose (manager_up_down_up, mkWorld [] pools_up_down_up [] [])
      = (s', w')
      /\ Shard s' (KInt 4) = Ok (Some (mkPool 1 "down"))
      /\ In (mkPool 1 "down") (closed w').
Proof.
  split; [reflexivity |]. split; [reflexivity |].
  destruct (Shard_after_Close px_up manager_up_down_up
              (mkWorld [] pools_up_down_up [] []) pools_up_down_up
              (KInt 4) (mkPool 1 "down") eq_refl eq_refl)
    as (s' & w' & Hexec & Hshard & Hin & _).
  exists s', w'. repeat split; assumption.
Defined.

(** ** Construction, further *)

(** Asking a collaborator about the elements of a list in turn: either
    every answer is nil or there is a first that is not. *)
Lemma oracle_cases {A} (ask : nat -> A -> option string) (l : list A) :
  forall n : nat,
    (forall j x, l !! j = Some x -> ask (n + j)%nat x = None)
    \/ exists p msg,
        (exists x, l !! p = Some x /\ ask (n + p)%nat x = Some msg)
        /\ forall j x, (j < p)%nat -> l !! j = Some x ->
                       ask (n + j)%nat x = None.
Proof.
  induction l as [| a l IH]; intros n; [by left |].
  destruct (ask (n + 0)%nat a) as [msg |] eqn:Ha.
  - right. exists O, msg. split; [by exists a | intros; lia].
  - destruct (IH (S n)) as [Hall | (p & msg & (x & Hx & Hbad) & Hbefore)].
    + left. intros [| j] x Hj; simpl in Hj.
      * by injection Hj as <-.
      * replace (n + S j)%nat with (S n + j)%nat by lia. by apply Hall.
    + right. exists (S p), msg. split.
      * exists x. split; [done |].
        by replace (n + S p)%nat with (S n + p)%nat by lia.
      * intros [| j] y Hj Hy; simpl in Hy.
        -- by injection Hy as <-.
        -- replace (n + S j)%nat with (S n + j)%nat by lia.
           apply Hbefore; [lia | done].
Qed.

Lemma New_cases {port : GoInt.Port}
        (px : Pgxpool) (targets : list string) (w : World) :
  (exists m w', New px targets w = (Ok m, w') /\ all_dials_ok px w targets)
  \/ (exists p cause w',
         New px targets w = (Err (ConnectFailed (Z.of_nat p) cause), w')
         /\ (p < List.length targets)%nat
         /\ first_dial_failure px w targets p cause).
Proof.
  destruct (oracle_cases (dial px) targets (List.length (dialed w)))
    as [Hall | (p & cause & (t & Ht & Hbad) & Hbefore)].
  - left. eexists _, _. split; [by apply New_ok | done].
  - right. exists p, cause. eexists.
    split; [by apply (New_fail px targets w p t cause) |].
    split; [by eapply lookup_lt_Some |].
    split; [by exists t | done].
Qed.

Lemma New_Ok_inv {port : GoInt.Port}
        (px : Pgxpool) (targets : list string) (w w' : World)
      (m : ShardManager) :
  New px targets w = (Ok m, w') ->
  all_dials_ok px w targets
  /\ m = mkShardManager
           (List.map Some (pools_from (List.length (opened w)) targets))
           (Z.of_nat (List.length targets)) (Some defaultShardIndexFunc)
  /\ w' = mkWorld (dialed w ++ targets)
                  (opened w ++ pools_from (List.length (opened w)) targets)
                  (pinged w) (closed w).
Proof.
  intros Hnew.
  destruct (New_cases px targets w)
    as [(m0 & w0 & Hok & Hall) | (p & cause & w0 & Hfail & _)].
  - rewrite (New_ok px targets w Hall) in Hnew. by injection Hnew as <- <-.
  - rewrite Hfail in Hnew. discriminate.
Qed.

(** X5.  [New] ends in exactly one of two ways, and never panics: it
    returns a manager, and then every target connected, or it returns the
    connect error for the first target that did not connect, whose position
    is a position of the target list. *)
Theorem New_outcomes {port : GoInt.Port}
        (px : Pgxpool) (targets : list string) (w : World) :
  (exists m w', New px targets w = (Ok m, w') /\ all_dials_ok px w targets)
  \/ (exists p cause w',
         New px targets w = (Err (ConnectFailed (Z.of_nat p) cause), w')
         /\ (p < List.length targets)%nat
         /\ first_dial_failure px w targets p cause).
Proof.
  destruct (oracle_cases (dial px) targets (List.length (dialed w)))
    as [Hall | (p & cause & (t & Ht & Hbad) & Hbefore)].
  - left. eexists _, _. split; [by apply New_ok | done].
  - right. exists p, cause. eexists.
    split; [by apply (New_fail px targets w p t cause) |].
    split; [by eapply lookup_lt_Some |].
    split; [by exists t | done].
Qed.

(** X6.  A successful [New] called [pgxpool.New] once for each target, in
    the order of the targets, and its shards are exactly the pools those
    calls returned, shard [i] for target [i]; it pinged and closed
    nothing. *)
Theorem New_success_effects {port : GoInt.Port}
        (px : Pgxpool) (targets : list string) (w w' : World)
        (m : ShardManager) :
  New px targets w = (Ok m, w') ->
  exists pools,
    shards m = List.map Some pools
    /\ List.map pool_target pools = targets
    /\ dialed w' = dialed w ++ targets
    /\ opened w' = opened w ++ pools
    /\ pinged w' = pinged w
    /\ closed w' = closed w.
Proof.
  intros Hnew. apply New_Ok_inv in Hnew as (_ & -> & ->).
  exists (pools_from (List.length (opened w)) targets). simpl.
  by rewrite pools_from_targets.
Qed.

Lemma New_success_effects_witness :
  New px_up ["A"; "B"]%string empty_world
  = (Ok (mkShardManager [Some (mkPool 0 "A"); Some (mkPool 1 "B")] 2
                        (Some defaultShardIndexFunc)),
     mkWorld ["A"; "B"]%string [mkPool 0 "A"; mkPool 1 "B"] [] [])
  /\ exists pools,
      [Some (mkPool 0 "A"); Some (mkPool 1 "B")] = List.map Some pools
      /\ List.map pool_target pools = ["A"; "B"]%string.
Proof.
  split; [reflexivity |].
  destruct (New_success_effects px_up ["A"; "B"]%string empty_world
              (mkWorld ["A"; "B"]%string [mkPool 0 "A"; mkPool 1 "B"] [] [])
              (mkShardManager [Some (mkPool 0 "A"); Some (mkPool 1 "B")] 2
                              (Some defaultShardIndexFunc))
              eq_refl)
    as (pools & Hs & Ht & _).
  exists pools. split; assumption.
Defined.

(** ** Routing through a constructed manager *)

Lemma Shard_at_index (s : ShardManager) (key : ShardKey) (f : strategy)
      (index : Z) (o : option Pool) :
  shardIndexFunc s = Some f -> f key (numShards s) = Ok index ->
  0 <= index -> shards s !! Z.to_nat index = Some o ->
  Shard s key = Ok o.
Proof.
  intros Hf Hi H0 Ho.
  pose proof (lookup_lt_Some _ _ _ Ho) as Hlt.
  destruct (Shard_in_range s key f index Hf Hi ltac:(lia))
    as (o' & Ho' & Hshard).
  congruence.
Qed.

(** On the manager [New] built, an index the default strategy returns in
    range selects the pool opened for the target at that index. *)
Lemma Shard_New_index {port : GoInt.Port}
        (px : Pgxpool) (targets : list string) (w w' : World)
      (m : ShardManager) (key : ShardKey) (index : Z) (t : string) :
  New px targets w = (Ok m, w') ->
  defaultShardIndexFunc key (Z.of_nat (List.length targets)) = Ok index ->
  0 <= index -> targets !! Z.to_nat index = Some t ->
  Shard m key = Ok (Some (mkPool (List.length (opened w) + Z.to_nat index) t)).
Proof.
  intros Hnew Hindex H0 Ht. apply New_Ok_inv in Hnew as (_ & -> & _).
  apply (Shard_at_index _ key defaultShardIndexFunc index); try done.
  simpl. apply lookup_map_Some. by apply pools_from_lookup.
Qed.

Lemma default_string_key_index {port : GoInt.Port} (v : string) (N : Z) :
  GoInt.intSize = 64 ->
  1 <= N ->
  defaultShardIndexFunc (KString v) N
  = Ok (crc32.ChecksumIEEE (bytes_of_string v) mod N).
Proof.
  intros H64 HN.
  pose proof (ChecksumIEEE_u32 v) as Hu32.
  unfold defaultShardIndexFunc.
  rewrite to_int_id by by apply in_uint32_in_int.
  rewrite int_rem_nonzero by lia.
  unfold GoInt.in_uint32 in Hu32. by rewrite Z.rem_mod_nonneg by lia.
Qed.

(** X7.  On a manager [New] returned, after any calls made on it, a
    lookup that succeeds returns a non-nil pool: the shard at the index the
    active strategy answered, which is the pool opened for the target at
    that index. *)
Theorem Shard_returns_a_shard {port : GoInt.Port}
        (px : Pgxpool) (targets : list string) (w w' w'' : World)
        (m s : ShardManager) (cs : list call)
        (key : ShardKey) (o : option Pool) :
  New px targets w = (Ok m, w') ->
  exec_all px cs (m, w') = (s, w'') ->
  Shard s key = Ok o ->
  exists f index pl,
    shardIndexFunc s = Some f
    /\ f key (numShards s) = Ok index
    /\ 0 <= index < Z.of_nat (List.length targets)
    /\ o = Some pl
    /\ targets !! Z.to_nat index = Some (pool_target pl)
    /\ pool_id pl = (List.length (opened w) + Z.to_nat index)%nat.
Proof.
  intros Hnew Hexec Hshard.
  apply New_Ok_inv in Hnew as (_ & -> & _).
  apply exec_all_shards in Hexec as [Hshards Hnum]. simpl in *.
  destruct (Shard_Ok_inv s key o Hshard) as (f & index & Hf & Hi & Hr & Hlook).
  rewrite Hshards in Hr, Hlook.
  rewrite length_map, pools_from_length in Hr.
  apply lookup_map_Some_inv in Hlook as (pl & -> & Hpl).
  destruct (lookup_lt_is_Some_2 targets (Z.to_nat index) ltac:(lia)) as [t Ht].
  rewrite (pools_from_lookup _ _ _ _ Ht) in Hpl. injection Hpl as <-.
  exists f, index. eexists. repeat split; (done || lia).
Qed.

Lemma Shard_returns_a_shard_witness :
  New px_up ["A"; "B"]%string empty_world
  = (Ok (mkShardManager [Some (mkPool 0 "A"); Some (mkPool 1 "B")] 2
                        (Some defaultShardIndexFunc)),
     mkWorld ["A"; "B"]%string [mkPool 0 "A"; mkPool 1 "B"] [] [])
  /\ Shard (mkShardManager [Some (mkPool 0 "A"); Some (mkPool 1 "B")] 2
                           (Some defaultShardIndexFunc))
           (KInt 3)
     = Ok (Some (mkPool 1 "B"))
  /\ exists f index pl,
      f (KInt 3) 2 = Ok index
      /\ Some (mkPool 1 "B") = Some pl
      /\ ["A"; "B"]%string !! Z.to_nat index = Some (pool_target pl).
Proof.
  split; [reflexivity |]. split; [reflexivity |].
  destruct (Shard_returns_a_shard
              px_up ["A"; "B"]%string empty_world
              (mkWorld ["A"; "B"]%string [mkPool 0 "A"; mkPool 1 "B"] [] [])
              (mkWorld ["A"; "B"]%string [mkPool 0 "A"; mkPool 1 "B"] [] [])
              (mkShardManager [Some (mkPool 0 "A"); Some (mkPool 1 "B")] 2
                              (Some defaultShardIndexFunc))
              _ [CallShards; CallShard (KInt 0)] (KInt 3)
              (Some (mkPool 1 "B")) eq_refl eq_refl eq_refl)
    as (f & index & pl & _ & Hi & _ & Ho & Ht & _).
  exists f, index, pl. repeat split; assumption.
Defined.

(** X8.  With the default strategy, a key of integer type that is not
    negative and whose value is in the range of [int] is routed to the pool
    opened for the target at position [k mod K], for [K >= 1] targets that
    all connect.  Every [int] and [int32] key is in that range on either
    port; an [int64] key is where [int] has 64 bits, and otherwise when its
    value is below 2^31. *)
Theorem Shard_nonnegative_key {port : GoInt.Port}
        (px : Pgxpool) (targets : list string) (w : World)
        (key : ShardKey) (k : Z) :
  all_dials_ok px w targets ->
  targets <> [] ->
  int_value key = Some k -> key_wf key -> GoInt.in_int k -> 0 <= k ->
  exists m w' t,
    New px targets w = (Ok m, w')
    /\ targets !! Z.to_nat (k mod Z.of_nat (List.length targets)) = Some t
    /\ Shard m key
       = Ok (Some (mkPool (List.length (opened w)
                           + Z.to_nat (k mod Z.of_nat (List.length targets)))
                          t)).
Proof.
  intros Hok Hne Hk Hwf Hfit Hk0.
  assert (HK : 1 <= Z.of_nat (List.length targets))
    by (destruct targets; [done | simpl; lia]).
  destruct (default_nonnegative_key key k _ Hk Hfit HK Hk0) as [Hindex Hrange].
  destruct (lookup_lt_is_Some_2 targets
              (Z.to_nat (k mod Z.of_nat (List.length targets))) ltac:(lia))
    as [t Ht].
  eexists _, _, t. split; [by apply New_ok |]. split; [done |].
  eapply Shard_New_index; [by apply New_ok | done | lia | done].
Qed.

Lemma Shard_nonnegative_key_witness :
  all_dials_ok px_up empty_world ["A"; "B"; "C"]%string
  /\ key_wf (port := GoInt.i386) (KInt64 7)
  /\ GoInt.in_int (port := GoInt.i386) 7
  /\ exists m w' t,
      New (port := GoInt.i386) px_up ["A"; "B"; "C"]%string empty_world
      = (Ok m, w')
      /\ ["A"; "B"; "C"]%string !! Z.to_nat (7 mod 3) = Some t
      /\ Shard m (KInt64 7) = Ok (Some (mkPool (0 + Z.to_nat (7 mod 3)) t)).
Proof.
  assert (Hok : all_dials_ok px_up empty_world ["A"; "B"; "C"]%string)
    by (intros j t _; reflexivity).
  assert (Hwf : key_wf (port := GoInt.i386) (KInt64 7))
    by (unfold key_wf, GoInt.in_int64; lia).
  assert (Hfit : GoInt.in_int (port := GoInt.i386) 7)
    by (unfold GoInt.in_int, GoInt.minInt, GoInt.maxInt; simpl; lia).
  split; [exact Hok |]. split; [exact Hwf |]. split; [exact Hfit |].
  apply (Shard_nonnegative_key (port := GoInt.i386)
           px_up ["A"; "B"; "C"]%string empty_world (KInt64 7) 7 Hok);
    [discriminate | reflexivity | exact Hwf | exact Hfit | lia].
Defined.

(** X9.  With the default strategy, a negative key of integer type whose
    value is in the range of [int] reaches a shard only when the number of
    shards divides it, and then shard 0; otherwise the lookup fails with
    the out-of-range error for the index [k mod K - K], which is negative.
    Every [int] and [int32] key is in that range on either port; an [int64]
    key is where [int] has 64 bits, and otherwise when its value is at
    least -2^31. *)
Theorem Shard_negative_key {port : GoInt.Port}
        (px : Pgxpool) (targets : list string) (w : World)
        (key : ShardKey) (k : Z) :
  all_dials_ok px w targets ->
  targets <> [] ->
  int_value key = Some k -> key_wf key -> GoInt.in_int k -> k < 0 ->
  exists m w' t,
    New px targets w = (Ok m, w')
    /\ targets !! O = Some t
    /\ Shard m key
       = if k mod Z.of_nat (List.length targets) =? 0
         then Ok (Some (mkPool (List.length (opened w)) t))
         else Err (IndexOutOfRange
                     (k mod Z.of_nat (List.length targets)
                      - Z.of_nat (List.length targets))).
Proof.
  intros Hok Hne Hk Hwf Hfit Hk0.
  assert (HK : 1 <= Z.of_nat (List.length targets))
    by (destruct targets; [done | simpl; lia]).
  destruct (default_negative_key key k _ Hk Hfit HK Hk0)
    as (r & Hindex & Hrange & Hzero & Hnonzero).
  destruct targets as [| t targets]; [done |].
  eexists _, _, t. split; [by apply New_ok |]. split; [done |].
  destruct (Z.eqb_spec (k mod Z.of_nat (List.length (t :: targets))) 0)
    as [Hdiv | Hndiv].
  - apply Hzero in Hdiv. subst r.
    pose proof (Shard_New_index px (t :: targets) w _ _ key 0 t
                  (New_ok px (t :: targets) w Hok) Hindex ltac:(lia) eq_refl)
      as Hshard.
    change (Z.to_nat 0) with O in Hshard.
    by rewrite Nat.add_0_r in Hshard.
  - assert (Hr : r <> 0) by (intros Hr; by apply Hzero in Hr).
    rewrite <- (Hnonzero Hr).
    apply (Shard_out_of_range _ key defaultShardIndexFunc r);
      [done | exact Hindex | left; lia].
Qed.

Lemma Shard_negative_key_witness :
  all_dials_ok px_up empty_world ["A"; "B"; "C"]%string
  /\ key_wf (port := GoInt.i386) (KInt64 (-7))
  /\ GoInt.in_int (port := GoInt.i386) (-7)
  /\ exists m w' t,
      New (port := GoInt.i386) px_up ["A"; "B"; "C"]%string empty_world
      = (Ok m, w')
      /\ ["A"; "B"; "C"]%string !! O = Some t
      /\ Shard m (KInt64 (-7))
         = if (-7) mod 3 =? 0 then Ok (Some (mkPool 0 t))
           else Err (IndexOutOfRange ((-7) mod 3 - 3)).
Proof.
  assert (Hok : all_dials_ok px_up empty_world ["A"; "B"; "C"]%string)
    by (intros j t _; reflexivity).
  assert (Hwf : key_wf (port := GoInt.i386) (KInt64 (-7)))
    by (unfold key_wf, GoInt.in_int64; lia).
  assert (Hfit : GoInt.in_int (port := GoInt.i386) (-7))
    by (unfold GoInt.in_int, GoInt.minInt, GoInt.maxInt; simpl; lia).
  split; [exact Hok |]. split; [exact Hwf |]. split; [exact Hfit |].
  apply (Shard_negative_key (port := GoInt.i386)
           px_up ["A"; "B"; "C"]%string empty_world (KInt64 (-7)) (-7) Hok);
    [discriminate | reflexivity | exact Hwf | exact Hfit | lia].
Defined.

(** X10.  Where [int] has 64 bits, with the default strategy every text
    key is routed: for [K >= 1] targets that all connect, the lookup
    returns the pool opened for the target at position checksum mod [K]. *)
Theorem Shard_string_key {port : GoInt.Port}
        (px : Pgxpool) (targets : list string) (w : World) (v : string) :
  GoInt.intSize = 64 ->
  all_dials_ok px w targets ->
  targets <> [] ->
  exists m w' t,
    New px targets w = (Ok m, w')
    /\ targets
       !! Z.to_nat (crc32.ChecksumIEEE (bytes_of_string v)
                    mod Z.of_nat (List.length targets))
       = Some t
    /\ Shard m (KString v)
       = Ok (Some (mkPool
                     (List.length (opened w)
                      + Z.to_nat (crc32.ChecksumIEEE (bytes_of_string v)
                                  mod Z.of_nat (List.length targets)))
                     t)).
Proof.
  intros H64 Hok Hne.
  assert (HK : 1 <= Z.of_nat (List.length targets))
    by (destruct targets; [done | simpl; lia]).
  pose proof (default_string_key_index v _ H64 HK) as Hindex.
  pose proof (Z.mod_pos_bound (crc32.ChecksumIEEE (bytes_of_string v))
                (Z.of_nat (List.length targets)) ltac:(lia)) as Hrange.
  destruct (lookup_lt_is_Some_2 targets
              (Z.to_nat (crc32.ChecksumIEEE (bytes_of_string v)
                         mod Z.of_nat (List.length targets))) ltac:(lia))
    as [t Ht].
  eexists _, _, t. split; [by apply New_ok |]. split; [done |].
  eapply Shard_New_index; [by apply New_ok | done | lia | done].
Qed.

Lemma Shard_string_key_witness :
  GoInt.intSize (Port := GoInt.amd64) = 64
  /\ all_dials_ok px_up empty_world ["A"; "B"]%string
  /\ exists m w' t,
      New px_up ["A"; "B"]%string empty_world = (Ok m, w')
      /\ Shard m (KString "user-42")
         = Ok (Some (mkPool
                       (0 + Z.to_nat (crc32.ChecksumIEEE
                                        (bytes_of_string "user-42") mod 2))
                       t)).
Proof.
  assert (Hok : all_dials_ok px_up empty_world ["A"; "B"]%string)
    by (intros j t _; reflexivity).
  split; [reflexivity |]. split; [exact Hok |].
  destruct (Shard_string_key (port := GoInt.amd64)
              px_up ["A"; "B"]%string empty_world "user-42"
              eq_refl Hok ltac:(discriminate))
    as (m & w' & t & Hnew & _ & Hshard).
  exists m, w', t. split; assumption.
Defined.

(** X11.  A manager over a single shard routes every key of a supported
    type to that shard: integer keys of either sign and text keys. *)
Theorem Shard_single_shard {port : GoInt.Port}
        (px : Pgxpool) (t : string) (w : World) (key : ShardKey) :
  all_dials_ok px w [t] ->
  supported key = true -> key_wf key ->
  exists m w',
    New px [t] w = (Ok m, w')
    /\ Shard m key = Ok (Some (mkPool (List.length (opened w)) t)).
Proof.
  intros Hok Hsup Hwf.
  eexists _, _. split; [by apply New_ok |].
  assert (Hindex : defaultShardIndexFunc key 1 = Ok 0).
  { destruct (default_supported_key key 1 Hsup ltac:(lia)) as [x Hx].
    by rewrite Hx, Z.rem_1_r. }
  pose proof (Shard_New_index px [t] w _ _ key 0 t (New_ok px [t] w Hok)
                Hindex ltac:(lia) eq_refl) as Hshard.
  change (Z.to_nat 0) with O in Hshard.
  by rewrite Nat.add_0_r in Hshard.
Qed.

Lemma Shard_single_shard_witness :
  all_dials_ok px_up empty_world ["A"]%string
  /\ supported (KInt32 (-5)) = true
  /\ exists m w',
      New px_up ["A"]%string empty_world = (Ok m, w')
      /\ Shard m (KInt32 (-5)) = Ok (Some (mkPool 0 "A")).
Proof.
  assert (Hok : all_dials_ok px_up empty_world ["A"]%string)
    by (intros j t _; reflexivity).
  split; [exact Hok |]. split; [reflexivity |].
  apply (Shard_single_shard px_up "A" empty_world (KInt32 (-5)) Hok eq_refl).
  unfold key_wf, GoInt.in_int32. lia.
Defined.

(** X12.  The type of an integer key does not matter as long as its
    value is in the range of [int]: held as [int64] it gets the answer the
    same value gets as [int], and so it does held as [int32], for every
    shard count, zero included.  Where [int] has 64 bits every [int64]
    value is in that range. *)
Theorem default_key_width {port : GoInt.Port} (v N : Z) :
  GoInt.in_int v ->
  defaultShardIndexFunc (KInt64 v) N = defaultShardIndexFunc (KInt v) N
  /\ (GoInt.in_int32 v ->
      defaultShardIndexFunc (KInt32 v) N = defaultShardIndexFunc (KInt v) N).
Proof.
  intros Hv. unfold defaultShardIndexFunc. by rewrite to_int_id.
Qed.

Lemma default_key_width_witness :
  GoInt.in_int (-7)
  /\ GoInt.in_int32 (-7)
  /\ defaultShardIndexFunc (KInt64 (-7)) 3 = defaultShardIndexFunc (KInt (-7)) 3
  /\ defaultShardIndexFunc (KInt32 (-7)) 3 = defaultShardIndexFunc (KInt (-7)) 3.
Proof.
  assert (Hv32 : GoInt.in_int32 (-7)) by (unfold GoInt.in_int32; lia).
  assert (Hv : GoInt.in_int (-7)) by (by apply in_int32_in_int).
  split; [exact Hv |]. split; [exact Hv32 |]. split.
  - exact (proj1 (default_key_width (-7) 3 Hv)).
  - exact (proj2 (default_key_width (-7) 3 Hv) Hv32).
Defined.

(** X13.  On the manager without shards, whatever index a strategy
    answers is refused by the range check: a custom strategy that does not
    divide by the shard count makes every lookup fail with the out-of-range
    error, not panic. *)
Theorem Shard_no_shards_custom_strategy {port : GoInt.Port}
        (px : Pgxpool) (w : World) (f : strategy) (key : ShardKey) (index : Z) :
  f key 0 = Ok index ->
  exists m w',
    New px [] w = (Ok m, w')
    /\ Shard (SetShardIndexFunc m (Some f)) key = Err (IndexOutOfRange index).
Proof.
  intros Hf. eexists _, _. split; [reflexivity |].
  apply (Shard_out_of_range _ key f index); [done | done |].
  simpl. lia.
Qed.

Lemma Shard_no_shards_custom_strategy_witness :
  strategy_count (KInt 7) 0 = Ok 0
  /\ exists m w',
      New px_up [] empty_world = (Ok m, w')
      /\ Shard (SetShardIndexFunc m (Some strategy_count)) (KInt 7)
         = Err (IndexOutOfRange 0).
Proof.
  split; [reflexivity |].
  apply (Shard_no_shards_custom_strategy px_up empty_world strategy_count
           (KInt 7) 0).
  reflexivity.
Defined.

(** ** Replacing the strategy *)

Lemma exec_all_cons (px : Pgxpool) (c : call) (cs : list call)
      (sw : ShardManager * World) :
  exec_all px (c :: cs) sw = exec_all px cs (exec px c sw).
Proof. reflexivity. Qed.

Lemma exec_strategy (px : Pgxpool) (c : call) (s s' : ShardManager)
      (w w' : World) :
  exec px c (s, w) = (s', w') ->
  shardIndexFunc s'
  = match c with
    | CallSetShardIndexFunc f => f
    | _ => shardIndexFunc s
    end.
Proof. destruct c; simpl; intros [= <- <-]; done. Qed.

Lemma exec_all_strategy
      (px : Pgxpool) (cs : list call) (s s' : ShardManager) (w w' : World) :
  exec_all px cs (s, w) = (s', w') ->
  shardIndexFunc s'
  = match last_set cs with
    | Some f => f
    | None => shardIndexFunc s
    end.
Proof.
  revert s w. induction cs as [| c cs IH]; intros s w.
  - by intros [= <- <-].
  - rewrite exec_all_cons.
    destruct (exec px c (s, w)) as [s1 w1] eqn:Hc.
    intros Hrest. rewrite (IH _ _ Hrest). simpl.
    destruct (last_set cs); [done |].
    apply exec_strategy in Hc. by destruct c.
Qed.

(** X14.  Replacing the strategy is a full substitution and nothing else
    touches it: after any sequence of calls the active strategy is the
    argument of the last [SetShardIndexFunc] among them, or the strategy
    from before when there is none. *)
Theorem strategy_after_calls
        (px : Pgxpool) (cs : list call) (s s' : ShardManager) (w w' : World) :
  exec_all px cs (s, w) = (s', w') ->
  shardIndexFunc s'
  = match last_set cs with
    | Some f => f
    | None => shardIndexFunc s
    end.
Proof.
  revert s w. induction cs as [| c cs IH]; intros s w.
  - by intros [= <- <-].
  - rewrite exec_all_cons.
    destruct (exec px c (s, w)) as [s1 w1] eqn:Hc.
    intros Hrest. rewrite (IH _ _ Hrest). simpl.
    destruct (last_set cs); [done |].
    apply exec_strategy in Hc. by destruct c.
Qed.

Lemma strategy_after_calls_witness :
  exec_all px_up
           [CallSetShardIndexFunc None; CallShard (KInt 1);
            CallSetShardIndexFunc (Some strategy_count); CallPing]
           (manager_up_down_up, empty_world)
  = (mkShardManager (List.map Some pools_up_down_up) 3 (Some strategy_count),
     mkWorld [] [] pools_up_down_up [])
  /\ shardIndexFunc
       (mkShardManager (List.map Some pools_up_down_up) 3 (Some strategy_count))
     = Some strategy_count.
Proof.
  split; [reflexivity |].
  apply (strategy_after_calls px_up
           [CallSetShardIndexFunc None; CallShard (KInt 1);
            CallSetShardIndexFunc (Some strategy_count); CallPing]
           manager_up_down_up _ empty_world
           (mkWorld [] [] pools_up_down_up [])).
  reflexivity.
Defined.

(** ** Health check, further *)

(** X15.  [Ping] on a manager whose shards are all non-nil ends in exactly
    one of two ways, and never panics: it returns nil after pinging every
    shard, or it returns the error of the first shard that did not answer
    after pinging the shards up to that one.  Either way it dials, opens
    and closes nothing. *)
Theorem Ping_outcomes
        (px : Pgxpool) (s : ShardManager) (w : World) (pools : list Pool) :
  shards s = List.map Some pools ->
  (Ping px s w
   = (Ok tt, mkWorld (dialed w) (opened w) (pinged w ++ pools) (closed w))
   /\ all_pings_ok px w pools)
  \/ (exists p msg,
         Ping px s w
         = (Err (Foreign msg),
            mkWorld (dialed w) (opened w) (pinged w ++ take (S p) pools)
                    (closed w))
         /\ (p < List.length pools)%nat
         /\ first_ping_failure px w pools p msg).
Proof.
  intros Hs. unfold Ping. rewrite Hs.
  destruct (oracle_cases (ping px) pools (List.length (pinged w)))
    as [Hall | (p & msg & (pl & Hpl & Hbad) & Hbefore)].
  - left. split; [by apply Ping_loop_ok | done].
  - right. exists p, msg.
    assert (Hfail : first_ping_failure px w pools p msg)
      by (split; [by exists pl | done]).
    split; [by apply Ping_loop_fail |].
    split; [by eapply lookup_lt_Some | done].
Qed.

Lemma Ping_outcomes_witness :
  shards manager_up_down_up = List.map Some pools_up_down_up
  /\ ((Ping (px_timing_out "down") manager_up_down_up empty_world
       = (Ok tt, mkWorld [] [] ([] ++ pools_up_down_up) [])
       /\ all_pings_ok (px_timing_out "down") empty_world pools_up_down_up)
      \/ exists p msg,
          Ping (px_timing_out "down") manager_up_down_up empty_world
          = (Err (Foreign msg),
             mkWorld [] [] ([] ++ take (S p) pools_up_down_up) [])
          /\ (p < List.length pools_up_down_up)%nat
          /\ first_ping_failure (px_timing_out "down") empty_world
                                pools_up_down_up p msg).
Proof.
  split; [reflexivity |].
  apply (Ping_outcomes (px_timing_out "down") manager_up_down_up empty_world
           pools_up_down_up).
  reflexivity.
Defined.

(** ** More on strategies and shards *)

(** X19.  [SetShardIndexFunc] accepts a nil function: once the last
    replacement among the calls made installed nil, every lookup panics
    with a nil function call, whatever the key. *)
Theorem Shard_after_nil_strategy
        (px : Pgxpool) (cs : list call) (s s' : ShardManager) (w w' : World)
        (key : ShardKey) :
  exec_all px cs (s, w) = (s', w') ->
  last_set cs = Some None ->
  Shard s' key = Panic NilDereference.
Proof.
  intros Hexec Hlast. apply exec_all_strategy in Hexec.
  rewrite Hlast in Hexec. unfold Shard. by rewrite Hexec.
Qed.

Lemma Shard_after_nil_strategy_witness :
  exec_all px_up [CallSetShardIndexFunc (Some strategy_count);
                  CallSetShardIndexFunc None; CallShards]
           (manager_up_down_up, empty_world)
  = (mkShardManager (List.map Some pools_up_down_up) 3 None, empty_world)
  /\ last_set [CallSetShardIndexFunc (Some strategy_count);
               CallSetShardIndexFunc None; CallShards]
     = Some None
  /\ Shard (mkShardManager (List.map Some pools_up_down_up) 3 None)
           (KString "user-42")
     = Panic NilDereference.
Proof.
  split; [reflexivity |]. split; [reflexivity |].
  apply (Shard_after_nil_strategy px_up
           [CallSetShardIndexFunc (Some strategy_count);
            CallSetShardIndexFunc None; CallShards]
           manager_up_down_up _ empty_world empty_world (KString "user-42"));
    reflexivity.
Defined.

Lemma pools_from_NoDup (n : nat) (targets : list string) :
  List.NoDup (pools_from n targets).
Proof.
  revert n. induction targets as [| t rest IH]; intros n; simpl.
  - constructor.
  - constructor; [| apply IH].
    intros Hin. apply pools_from_id_ge in Hin. simpl in Hin. lia.
Qed.

(** X20.  The shards of a manager [New] returned are pairwise different
    pools, also when the same connection string is given more than once:
    every position has a pool of its own. *)
Theorem New_shards_distinct {port : GoInt.Port}
        (px : Pgxpool) (targets : list string) (w w' : World)
        (m : ShardManager) :
  New px targets w = (Ok m, w') ->
  exists pools,
    shards m = List.map Some pools
    /\ List.length pools = List.length targets
    /\ List.NoDup pools.
Proof.
  intros Hnew. apply New_Ok_inv in Hnew as (_ & -> & _).
  exists (pools_from (List.length (opened w)) targets). simpl.
  split; [done |]. split; [apply pools_from_length | apply pools_from_NoDup].
Qed.

Lemma New_shards_distinct_witness :
  New px_up ["A"; "A"]%string empty_world
  = (Ok (mkShardManager [Some (mkPool 0 "A"); Some (mkPool 1 "A")] 2
                        (Some defaultShardIndexFunc)),
     mkWorld ["A"; "A"]%string [mkPool 0 "A"; mkPool 1 "A"] [] [])
  /\ exists pools,
      [Some (mkPool 0 "A"); Some (mkPool 1 "A")] = List.map Some pools
      /\ List.NoDup pools.
Proof.
  split; [reflexivity |].
  destruct (New_shards_distinct px_up ["A"; "A"]%string empty_world
              (mkWorld ["A"; "A"]%string [mkPool 0 "A"; mkPool 1 "A"] [] [])
              (mkShardManager [Some (mkPool 0 "A"); Some (mkPool 1 "A")] 2
                              (Some defaultShardIndexFunc))
              eq_refl)
    as (pools & Hs & _ & Hnd).
  exists pools. split; assumption.
Defined.

(** X21.  With at least one shard the default strategy never panics and
    never answers an index past the last shard: a key of a supported type
    gets an index strictly between [-N] and [N], any other key gets the
    unsupported-key-type error. *)
Theorem default_outcomes {port : GoInt.Port} (key : ShardKey) (N : Z) :
  1 <= N -> key_wf key ->
  (supported key = true
   /\ exists index, defaultShardIndexFunc key N = Ok index /\ - N < index < N)
  \/ (supported key = false
      /\ defaultShardIndexFunc key N = Err KeyTypeNotSupported).
Proof.
  intros HN Hwf.
  destruct (supported key) eqn:Hsup.
  - left. split; [done |].
    destruct (default_supported_key key N Hsup ltac:(lia)) as [x Hx].
    exists (Z.rem x N). split; [done |].
    pose proof (Z.rem_bound_abs x N ltac:(lia)). lia.
  - right. split; [done |]. by apply default_unsupported_key.
Qed.

Lemma default_outcomes_witness :
  1 <= 3
  /\ key_wf (KInt32 (-7))
  /\ ((supported (KInt32 (-7)) = true
       /\ exists index,
           defaultShardIndexFunc (KInt32 (-7)) 3 = Ok index /\ - 3 < index < 3)
      \/ (supported (KInt32 (-7)) = false
          /\ defaultShardIndexFunc (KInt32 (-7)) 3 = Err KeyTypeNotSupported)).
Proof.
  assert (Hwf : key_wf (KInt32 (-7)))
    by (unfold key_wf, GoInt.in_int32; lia).
  split; [lia |]. split; [exact Hwf |].
  apply (default_outcomes (KInt32 (-7)) 3); [lia | exact Hwf].
Defined.

(** ** Error messages *)

Lemma string_of_uint_colon_free (d : Decimal.uint) :
  colon_free (DecimalString.NilEmpty.string_of_uint d) = true.
Proof. induction d; simpl; done. Qed.

Lemma fmt_d_colon_free (z : Z) : colon_free (fmt_d z) = true.
Proof.
  unfold fmt_d, DecimalString.NilZero.string_of_int,
    DecimalString.NilZero.string_of_uint.
  destruct (Z.to_int z) as [d | d]; destruct d; simpl;
    try done; apply string_of_uint_colon_free.
Qed.

Lemma parse_d_fmt_d (z : Z) : parse_d (fmt_d z) = Some z.
Proof.
  unfold parse_d, fmt_d.
  rewrite DecimalString.NilZero.isi.
  - by rewrite DecimalZ.of_to.
  - destruct z; simpl; try discriminate.
    intros [= H]. by apply DecimalPos.Unsigned.to_uint_nonnil in H.
  - destruct z; simpl; try discriminate.
    intros [= H]. by apply DecimalPos.Unsigned.to_uint_nonnil in H.
Qed.

Lemma strip_prefix_app (p s : string) :
  strip_prefix p (p ++ s)%string = Some s.
Proof.
  induction p as [| a p IH]; simpl; [done |].
  by rewrite Ascii.eqb_refl.
Qed.

Lemma split_colon_app (a r : string) :
  colon_free a = true ->
  split_colon (a ++ String ":" r)%string = Some (a, r).
Proof.
  induction a as [| c a IH]; simpl; [done |].
  intros [Hc Ha]%andb_prop. apply negb_true_iff in Hc.
  by rewrite Hc, IH.
Qed.

(** X16.  The message of the connect error of [New] determines the
    position and the cause: reading the message back gives both, for every
    position and whatever the text of the cause. *)
Theorem connect_error_message_read_back (i : Z) (cause : string) :
  parse_connect_error (Error (ConnectFailed i cause)) = Some (i, cause).
Proof.
  unfold parse_connect_error, Error.
  rewrite strip_prefix_app.
  change (": " ++ cause)%string with (String ":" (String " " cause)).
  rewrite split_colon_app by apply fmt_d_colon_free.
  by rewrite parse_d_fmt_d.
Qed.

(** ** The lock discipline, further *)

Module SyncProgress.

Import Sync.

Lemma locking_methods_are_guarded (es : list event) :
  In es locking_methods -> guarded es = true.
Proof.
  unfold locking_methods. simpl.
  intros [<- | [<- | [<- | [<- | []]]]]; reflexivity.
Qed.

Lemma all_methods_are_well_locked (es : list event) :
  In es all_methods -> well_locked es = true.
Proof.
  unfold all_methods, locking_methods. simpl.
  intros [<- | [<- | [<- | [<- | [<- | []]]]]]; reflexivity.
Qed.

(** X17.  Goroutines that run [SetShardIndexFunc], [Shards], [Ping] and
    [Close] on one manager, any number of them under any schedule, never
    have a write of a field pending together with another access of
    it. *)
Theorem locking_methods_race_free
        (progs : list (list event)) (schedule : list nat) (st : state)
        (t1 t2 : nat) (f : field) :
  Forall (fun es => In es locking_methods) progs ->
  run schedule (init progs) = Some st ->
  ~ race st t1 t2 f.
Proof.
  intros Hall Hrun.
  apply (SyncFacts.guarded_race_free progs schedule); [| done].
  eapply Forall_impl; [exact Hall |].
  intros es. apply locking_methods_are_guarded.
Qed.

Lemma locking_methods_race_free_witness :
  Forall (fun es => In es locking_methods)
         [SetShardIndexFunc_events; Shards_events; SetShardIndexFunc_events]
  /\ run [0; 0; 0; 2]%nat
         (init [SetShardIndexFunc_events; Shards_events; SetShardIndexFunc_events])
     = Some (mkState (Some 2%nat)
                     [[]; Shards_events; [Write FShardIndexFunc; Unlock]])
  /\ ~ race (mkState (Some 2%nat)
                     [[]; Shards_events; [Write FShardIndexFunc; Unlock]])
            2 1 FShardIndexFunc.
Proof.
  assert (Hall : Forall (fun es => In es locking_methods)
                        [SetShardIndexFunc_events; Shards_events;
                         SetShardIndexFunc_events])
    by (repeat constructor; simpl; tauto).
  split; [exact Hall |]. split; [reflexivity |].
  apply (locking_methods_race_free
           [SetShardIndexFunc_events; Shards_events; SetShardIndexFunc_events]
           [0; 0; 0; 2]%nat _ 2 1 FShardIndexFunc Hall).
  reflexivity.
Defined.

Lemma init_progress_inv (progs : list (list event)) :
  Forall (fun es => well_locked es = true) progs -> progress_inv (init progs).
Proof.
  intros Hall. split; [| done].
  intros t k Hk. simpl in *.
  rewrite Forall_forall in Hall.
  apply Hall. by eapply list_elem_of_lookup_2.
Qed.

Lemma step_progress_inv (t : nat) (st st' : state) :
  step t st = Some st' -> progress_inv st -> progress_inv st'.
Proof.
  unfold step, progress_inv. intros Hstep [Hinv Hholder].
  destruct (threads st !! t) as [[| e k] |] eqn:Ht; try done.
  pose proof (Hinv t _ Ht) as Hself.
  pose proof (lookup_lt_Some _ _ _ Ht) as Hlt.
  assert (Hkeep : forall h, is_Some (threads st !! h) ->
                            is_Some (<[t:=k]> (threads st) !! h)).
  { intros h Hh. destruct (decide (h = t)) as [-> | Hne].
    - by rewrite list_lookup_insert_eq.
    - by rewrite list_lookup_insert_ne. }
  destruct e.
  - destruct (holder st) as [h |] eqn:Hh; [done |].
    injection Hstep as <-. simpl in *. split.
    + intros t' k' Hk'. destruct (decide (t' = t)) as [-> | Hne].
      * rewrite list_lookup_insert_eq in Hk' by done. injection Hk' as <-.
        by rewrite bool_decide_eq_true_2.
      * rewrite list_lookup_insert_ne in Hk' by done.
        rewrite bool_decide_eq_false_2 by congruence.
        exact (Hinv t' k' Hk').
    + intros h [= <-]. apply Hkeep. by eexists.
  - destruct (decide (holder st = Some t)) as [Hh | Hh]; [| done].
    injection Hstep as <-. simpl in *. split; [| done].
    intros t' k' Hk'. destruct (decide (t' = t)) as [-> | Hne].
    + rewrite list_lookup_insert_eq in Hk' by done. injection Hk' as <-.
      by apply andb_prop in Hself as [_ ?].
    + rewrite list_lookup_insert_ne in Hk' by done.
      specialize (Hinv t' k' Hk').
      by rewrite bool_decide_eq_false_2 in Hinv by congruence.
  - injection Hstep as <-. simpl in *. split.
    + intros t' k' Hk'. destruct (decide (t' = t)) as [-> | Hne].
      * rewrite list_lookup_insert_eq in Hk' by done. by injection Hk' as <-.
      * rewrite list_lookup_insert_ne in Hk' by done. by apply Hinv.
    + intros h Hh. by apply Hkeep, Hholder.
  - injection Hstep as <-. simpl in *. split.
    + intros t' k' Hk'. destruct (decide (t' = t)) as [-> | Hne].
      * rewrite list_lookup_insert_eq in Hk' by done. by injection Hk' as <-.
      * rewrite list_lookup_insert_ne in Hk' by done. by apply Hinv.
    + intros h Hh. by apply Hkeep, Hholder.
Qed.

Lemma run_progress_inv (schedule : list nat) :
  forall st st', run schedule st = Some st' -> progress_inv st -> progress_inv st'.
Proof.
  induction schedule as [| t schedule IH]; intros st st'; simpl.
  - by intros [= <-].
  - destruct (step t st) as [st1 |] eqn:Hstep; [| done].
    intros Hrun Hinv. eapply IH; [done |]. by eapply step_progress_inv.
Qed.

Lemma done_or_pending (l : list (list event)) :
  (forall t, match l !! t with Some (_ :: _) => False | _ => True end)
  \/ exists t e k, l !! t = Some (e :: k).
Proof.
  induction l as [| es l IH].
  - left. by intros [| t].
  - destruct es as [| e k].
    + destruct IH as [Hdone | (t & e & k & Ht)].
      * left. intros [| t]; [done | apply Hdone].
      * right. by exists (S t), e, k.
    + right. by exists O, e, k.
Qed.

(** While well-locked methods run, a goroutine with events left can run,
    or the holder of the mutex can. *)
Lemma progress_inv_step (st : state) (t : nat) (e : event) :
  progress_inv st -> next st t = Some e ->
  exists t' st', step t' st = Some st'.
Proof.
  intros [Hinv Hholder] Hnext.
  destruct (holder st) as [h |] eqn:Hh.
  - destruct (Hholder h eq_refl) as [k Hk].
    pose proof (Hinv h k Hk) as Hwl.
    rewrite bool_decide_eq_true_2 in Hwl by done.
    exists h. unfold step. rewrite Hk, ?Hh.
    destruct k as [| [] k]; simpl in Hwl; try done; try by eexists.
    destruct (decide (Some h = Some h)); [by eexists | done].
  - unfold next in Hnext.
    destruct (threads st !! t) as [[| e' k] |] eqn:Ht; try done.
    pose proof (Hinv t _ Ht) as Hwl.
    rewrite bool_decide_eq_false_2 in Hwl by done.
    exists t. unfold step. rewrite Ht, ?Hh.
    destruct e'; simpl in Hwl; try done; by eexists.
Qed.

(** X18.  Goroutines that run the methods of one manager, any number of
    them under any schedule, never deadlock: as long as one of them has not
    returned, one of them can run.  And none of them unlocks a mutex it
    does not hold. *)
Theorem methods_never_deadlock
        (progs : list (list event)) (schedule : list nat) (st : state) :
  Forall (fun es => In es all_methods) progs ->
  run schedule (init progs) = Some st ->
  (all_done st \/ exists t st', step t st = Some st')
  /\ (forall t, next st t = Some Unlock -> holder st = Some t).
Proof.
  intros Hall Hrun.
  assert (Hinv : progress_inv st).
  { apply (run_progress_inv schedule _ _ Hrun), init_progress_inv.
    eapply Forall_impl; [exact Hall |].
    intros es. apply all_methods_are_well_locked. }
  split.
  - destruct (done_or_pending (threads st)) as [Hdone | (t & e & k & Ht)].
    + left. intros t. unfold next. specialize (Hdone t).
      by destruct (threads st !! t) as [[| ? ?] |].
    + right. apply (progress_inv_step st t e Hinv).
      unfold next. by rewrite Ht.
  - intros t Hnext. unfold next in Hnext.
    destruct (threads st !! t) as [[| e k] |] eqn:Ht; try done.
    injection Hnext as ->.
    destruct Hinv as [Hinv _]. specialize (Hinv t _ Ht). simpl in Hinv.
    apply andb_prop in Hinv as [Hb _].
    by apply bool_decide_eq_true_1 in Hb.
Qed.

Lemma methods_never_deadlock_witness :
  Forall (fun es => In es all_methods)
         [Ping_events; Shard_events; Close_events]
  /\ run [0; 1; 2]%nat (init [Ping_events; Shard_events; Close_events]) = None
  /\ run [0; 1; 0]%nat (init [Ping_events; Shard_events; Close_events])
     = Some (mkState (Some 0%nat)
                     [[Unlock];
                      [Read FNumShards; Read FShards; Read FShards];
                      Close_events])
  /\ (all_done (mkState (Some 0%nat)
                        [[Unlock];
                         [Read FNumShards; Read FShards; Read FShards];
                         Close_events])
      \/ exists t st',
          step t (mkState (Some 0%nat)
                          [[Unlock];
                           [Read FNumShards; Read FShards; Read FShards];
                           Close_events])
          = Some st').
Proof.
  assert (Hall : Forall (fun es => In es all_methods)
                        [Ping_events; Shard_events; Close_events])
    by (repeat constructor; simpl; tauto).
  split; [exact Hall |]. split; [reflexivity |]. split; [reflexivity |].
  exact (proj1 (methods_never_deadlock
                  [Ping_events; Shard_events; Close_events] [0; 1; 0]%nat _
                  Hall eq_refl)).
Defined.

End SyncProgress.
